(** * httpmock: the interaction registry and its dispatch

    A shallow embedding of the registry of [interactions.go] (type
    [Interactions] and its methods [Add], [NextInteraction], [Interaction],
    [AllInteractions], [Reset]), of [RequestResponse.Capture], of
    [option.ProcessOptions], and of the key derivation [getKey], and of the
    request handler and the registry methods of [Server] in [server.go],
    followed by the properties of the registry that the specification
    states and by further properties read off the code.

    Layout of the model.
    - Go strings are [string]; [int] and [time.Duration] are [Z].  The only
      arithmetic the registry performs on an [int] is [mi.attempt++], executed
      under the guard [mi.attempt < len(mi.requestResponses)], so the
      increment stays below the length of a slice and cannot wrap.
    - [map[string]*interactions] is a [gmap string interactions].  Every
      [*interactions] is created inside [Add] and is reachable only through
      the map entry it is stored under, so the pointer is modelled by the
      value it points to.
    - [*RequestResponse] results are explicit pointers ([ptr]): either the
      address of a heap cell holding a copy, or the address of an element of
      a stored queue.  Which of the two a method returns is read off the
      source, and [Capture] writes through whichever pointer it is given.
    - A panic is an explicit outcome; every method runs in the monad [M]. *)

From Stdlib Require Import ZArith Lia Ascii String.
From stdpp Require Import gmap strings list fin_maps.

Open Scope string_scope.
Open Scope list_scope.
Open Scope Z_scope.

(** ** Values *)

(** [[]byte]; [None] is the nil slice. *)
Definition bytes : Type := option (list Byte.byte).

(** [http.Header], i.e. [map[string][]string]; [None] is the nil map. *)
Definition Header : Type := option (gmap string (list string)).

(** [interface{}] as used for [ResponseObject]: nil, or a payload that the
    registry never inspects. *)
Definition any : Type := option string.

(** A Go [error] value that is not nil. *)
Definition error : Type := string.

(** [RequestCaptureFunc]: nil, or a function value.  A function value is
    identified by a number; calling it is recorded in the world's call log
    (see [World]). *)
Definition RequestCaptureFunc : Type := option nat.

Record RequestResponse : Type := mkRequestResponse {
  Path : string;
  Method : string;
  ResponseHttpStatus : Z;
  ResponseObject : any;
  ResponseContentType : string;
  CapturedRequestBody : bytes;
  CapturedRequestHeaders : Header;
  DelayResponse : Z;
  RequestCaptureFunc_ : RequestCaptureFunc
}.

(** The struct [interactions]: the queue of one key and its cursor. *)
Record interactions : Type := mkInteractions {
  attempt : Z;
  requestResponses : list RequestResponse
}.

(** The struct [Interactions].  The mutex is the subject of the section on
    concurrent dispatch; the logger only writes log lines. *)
Record Interactions : Type := mkRegistry {
  interactions_map : gmap string interactions
}.

(** ** Package option *)

Record HttpMockOptions : Type := mkOptions { Delay : Z }.

(** An option function takes a pointer to [HttpMockOptions] and returns an
    [error]: it may update the options it points to, and returns nil
    ([None]) or an error. *)
Definition HttpMockOptionFunc : Type :=
  HttpMockOptions -> HttpMockOptions * option error.

Definition WithResponseDelay (delay : Z) : HttpMockOptionFunc :=
  fun _ => (mkOptions delay, None).

(** ** Panics, the world, and the monad of the methods *)

Inductive panic : Type :=
| LoggerPanic (msg : string) (err : error)   (* logger.Panic(msg, zap.Error(err)) *)
| IndexOutOfRange (index : Z) (len : nat)    (* runtime error of s[index] *)
| InvalidPointer.                            (* a pointer that addresses nothing *)

(** The loop of [ProcessOptions], on the current value of [op]. *)
Fixpoint ProcessOptions_from (optionFunc : list HttpMockOptionFunc)
    (op : HttpMockOptions) : panic + HttpMockOptions :=
  match optionFunc with
  | [] => inr op
  | fn :: rest =>
      match fn op with
      | (_, Some err) => inl (LoggerPanic "load option failed" err)
      | (op', None) => ProcessOptions_from rest op'
      end
  end.

Definition ProcessOptions (optionFunc : list HttpMockOptionFunc)
    : panic + HttpMockOptions :=
  ProcessOptions_from optionFunc (mkOptions 0).

(** A pointer to a [RequestResponse]: the address of a local copy that has
    escaped to the heap, or the address of element [i] of the queue stored
    under [key].  An element address is meant for the state in which it was
    taken: in Go it stays with the backing array of the slice, which a later
    [append] or [Reset] may replace. *)
Inductive ptr : Type :=
| PCopy (cell : nat)                (* &requestResponse, a local that escapes *)
| PElem (key : string) (i : nat).   (* &mi.requestResponses[i] of the queue at key *)

(** What a program using one registry can observe: the registry, the heap
    cells that hold escaped copies, and the calls made to capture functions
    (oldest first). *)
Record World : Type := mkWorld {
  registry : Interactions;
  cells : list RequestResponse;
  calls : list (nat * bytes * Header)
}.

Inductive outcome (A : Type) : Type :=
| Returned (a : A) (w : World)
| Panicked (p : panic) (w : World).
Arguments Returned {A} a w.
Arguments Panicked {A} p w.

Definition M (A : Type) : Type := World -> outcome A.

Definition ret {A} (a : A) : M A := fun w => Returned a w.

Definition bind {A B} (c : M A) (k : A -> M B) : M B :=
  fun w => match c w with
           | Returned a w' => k a w'
           | Panicked p w' => Panicked p w'
           end.

Definition throw {A} (p : panic) : M A := fun w => Panicked p w.

Definition lift {A} (r : panic + A) : M A :=
  match r with inl p => throw p | inr a => ret a end.

Declare Scope go_scope.
Delimit Scope go_scope with go.
Notation "x <- c ;; k" := (bind c (fun x => k))
  (at level 100, c at next level, right associativity) : go_scope.
Notation "c ;;; k" := (bind c (fun _ => k))
  (at level 100, right associativity) : go_scope.
Open Scope go_scope.

(** The world an outcome leaves behind. *)
Definition world_of {A} (o : outcome A) : World :=
  match o with Returned _ w => w | Panicked _ w => w end.

Definition table (w : World) : gmap string interactions :=
  interactions_map (registry w).

Definition set_table (t : gmap string interactions) (w : World) : World :=
  mkWorld (mkRegistry t) (cells w) (calls w).

Definition get_table : M (gmap string interactions) :=
  fun w => Returned (table w) w.

Definition put_table (t : gmap string interactions) : M unit :=
  fun w => Returned tt (set_table t w).

(** [s[i]] on a slice, for a Go [int] index. *)
Definition index {A} (s : list A) (i : Z) : panic + A :=
  if i <? 0 then inl (IndexOutOfRange i (length s))
  else match s !! Z.to_nat i with
       | Some x => inr x
       | None => inl (IndexOutOfRange i (length s))
       end.

Definition len {A} (s : list A) : Z := Z.of_nat (length s).

(** ** The registry *)

Definition getKey (method path : string) : string :=
  method +:+ "_" +:+ path.

Definition NewInteractions : Interactions := mkRegistry ∅.

Definition addDelay (req : RequestResponse) (options : HttpMockOptions)
    : RequestResponse :=
  mkRequestResponse (Path req) (Method req) (ResponseHttpStatus req)
    (ResponseObject req) (ResponseContentType req) (CapturedRequestBody req)
    (CapturedRequestHeaders req) (Delay options) (RequestCaptureFunc_ req).

Definition NewRequestResponse (method path : string) (responseStatus : Z)
    (responseObject : any) (responseContentType : string)
    (requestCaptureFunc : RequestCaptureFunc) (opts : HttpMockOptions)
    : RequestResponse :=
  let req := mkRequestResponse path method responseStatus responseObject
               responseContentType None None 0 requestCaptureFunc in
  addDelay req opts.

(** [make([]RequestResponse, 0, 10)] with cursor 0. *)
Definition new_interactions : interactions := mkInteractions 0 [].

Definition Add (method path : string) (responseStatus : Z)
    (responseObject : any) (responseContentType : string)
    (requestCaptureFunc : RequestCaptureFunc)
    (opts : list HttpMockOptionFunc) : M unit :=
  m <- get_table ;;
  let key := getKey method path in
  let mi := match m !! key with
            | Some mi => mi
            | None => new_interactions
            end in
  options <- lift (ProcessOptions opts) ;;
  let req := NewRequestResponse method path responseStatus responseObject
               responseContentType requestCaptureFunc options in
  let mi := mkInteractions (attempt mi) (requestResponses mi ++ [req]) in
  put_table (<[key := mi]> m).

(** Moves a value to a new heap cell and returns its address. *)
Definition escape (v : RequestResponse) : M ptr :=
  fun w => Returned (PCopy (length (cells w)))
             (mkWorld (registry w) (cells w ++ [v]) (calls w)).

Definition NextInteraction (method path : string) : M (option ptr) :=
  m <- get_table ;;
  let key := getKey method path in
  match m !! key with
  | None => ret None
  | Some mi =>
      if len (requestResponses mi) <=? attempt mi then ret None
      else
        requestResponse <- lift (index (requestResponses mi) (attempt mi)) ;;
        put_table (<[key := mkInteractions (attempt mi + 1)
                                           (requestResponses mi)]> m) ;;;
        p <- escape requestResponse ;;
        ret (Some p)
  end.

Definition Interaction (method path : string) (attempt : Z)
    : M (option ptr) :=
  m <- get_table ;;
  let key := getKey method path in
  match m !! key with
  | None => ret None
  | Some mi =>
      if len (requestResponses mi) <=? attempt then ret None
      else
        _ <- lift (index (requestResponses mi) attempt) ;;
        ret (Some (PElem key (Z.to_nat attempt)))
  end.

Definition AllInteractions (method path : string)
    : M (list RequestResponse) :=
  m <- get_table ;;
  match m !! getKey method path with
  | None => ret []
  | Some mi => ret (requestResponses mi)
  end.

Definition Reset : M unit := put_table ∅.

(** ** Memory access through a pointer *)

Definition load (p : ptr) (w : World) : option RequestResponse :=
  match p with
  | PCopy c => cells w !! c
  | PElem key i => mi ← table w !! key; requestResponses mi !! i
  end.

Definition store (p : ptr) (v : RequestResponse) (w : World) : World :=
  match p with
  | PCopy c => mkWorld (registry w) (<[c := v]> (cells w)) (calls w)
  | PElem key i =>
      match table w !! key with
      | Some mi =>
          set_table (<[key := mkInteractions (attempt mi)
                                (<[i := v]> (requestResponses mi))]> (table w)) w
      | None => w
      end
  end.

Definition read (p : ptr) : M RequestResponse :=
  fun w => match load p w with
           | Some v => Returned v w
           | None => Panicked InvalidPointer w
           end.

Definition write (p : ptr) (v : RequestResponse) : M unit :=
  fun w => Returned tt (store p v w).

(** A call of the function value [f]. *)
Definition call (f : nat) (body : bytes) (headers : Header) : M unit :=
  fun w => Returned tt
             (mkWorld (registry w) (cells w) (calls w ++ [(f, body, headers)])).

(** The record [v] with a body and headers stored in its capture fields. *)
Definition captured (v : RequestResponse) (body : bytes) (headers : Header)
    : RequestResponse :=
  mkRequestResponse (Path v) (Method v) (ResponseHttpStatus v)
    (ResponseObject v) (ResponseContentType v) body headers
    (DelayResponse v) (RequestCaptureFunc_ v).

(** [func (r *RequestResponse) Capture(requestBody, headers)] *)
Definition Capture (r : ptr) (requestBody : bytes) (headers : Header)
    : M unit :=
  v <- read r ;;
  write r (captured v requestBody headers) ;;;
  match RequestCaptureFunc_ v with
  | Some f => call f requestBody headers
  | None => ret tt
  end.

(** ** Programs over the registry *)

(** The arguments of one [Add] call besides method and path. *)
Record add_args : Type := mkAdd {
  add_status : Z;
  add_object : any;
  add_contentType : string;
  add_captureFunc : RequestCaptureFunc;
  add_opts : list HttpMockOptionFunc
}.

Inductive op : Type :=
| OpAdd (method path : string) (a : add_args)
| OpNext (method path : string)
| OpInteraction (method path : string) (attempt : Z)
| OpAll (method path : string)
| OpReset.

(** What the caller of an operation sees.  For a pointer result this is the
    record behind the pointer at the moment the method returns; [None] is the
    nil pointer, the "not found" answer. *)
Inductive result : Type :=
| RDone
| RRecord (r : option RequestResponse)
| RAll (l : list RequestResponse)
| RPanic (p : panic).

Definition deref (p : option ptr) : M (option RequestResponse) :=
  match p with
  | None => ret None
  | Some p => v <- read p ;; ret (Some v)
  end.

Definition perform (o : op) : M result :=
  match o with
  | OpAdd method path a =>
      Add method path (add_status a) (add_object a) (add_contentType a)
        (add_captureFunc a) (add_opts a) ;;;
      ret RDone
  | OpNext method path =>
      p <- NextInteraction method path ;; v <- deref p ;; ret (RRecord v)
  | OpInteraction method path attempt =>
      p <- Interaction method path attempt ;; v <- deref p ;; ret (RRecord v)
  | OpAll method path =>
      l <- AllInteractions method path ;; ret (RAll l)
  | OpReset => Reset ;;; ret RDone
  end.

(** One operation, with a panic turned into a result (the caller recovers). *)
Definition run1 (o : op) (w : World) : result * World :=
  match perform o w with
  | Returned r w' => (r, w')
  | Panicked p w' => (RPanic p, w')
  end.

Fixpoint run (ops : list op) (w : World) : list result * World :=
  match ops with
  | [] => ([], w)
  | o :: rest =>
      let '(r, w') := run1 o w in
      let '(rs, w'') := run rest w' in
      (r :: rs, w'')
  end.

Definition NewWorld : World := mkWorld NewInteractions [] [].

(** The record an [Add] stores, when its options resolve. *)
Definition record_for (method path : string) (a : add_args)
    : option RequestResponse :=
  match ProcessOptions (add_opts a) with
  | inr options =>
      Some (NewRequestResponse method path (add_status a) (add_object a)
              (add_contentType a) (add_captureFunc a) options)
  | inl _ => None
  end.

(** The queue and the cursor of a key, as [AllInteractions] and
    [NextInteraction] read them. *)
Definition records (w : World) (key : string) : list RequestResponse :=
  match table w !! key with
  | Some mi => requestResponses mi
  | None => []
  end.

Definition cursor (w : World) (key : string) : Z :=
  match table w !! key with
  | Some mi => attempt mi
  | None => 0
  end.

(** The cursor of a queue lies within the queue. *)
Definition cursor_ok (mi : interactions) : Prop :=
  0 <= attempt mi <= len (requestResponses mi).

Definition well_formed (w : World) : Prop :=
  forall key mi, table w !! key = Some mi -> cursor_ok mi.

(** A key is exhausted: it has no queue, or its cursor is at the end. *)
Definition exhausted (w : World) (key : string) : Prop :=
  match table w !! key with
  | Some mi => attempt mi = len (requestResponses mi)
  | None => True
  end.

(** ** Notions used in the statements *)

(** The three ways [NextInteraction] can end. *)
Inductive next_case (w : World) (key : string) : outcome (option ptr) -> Prop :=
| next_none :
    (forall mi, table w !! key = Some mi ->
                len (requestResponses mi) <= attempt mi) ->
    next_case w key (Returned None w)
| next_some mi r :
    table w !! key = Some mi -> 0 <= attempt mi ->
    requestResponses mi !! Z.to_nat (attempt mi) = Some r ->
    next_case w key
      (Returned (Some (PCopy (length (cells w))))
         (mkWorld
            (mkRegistry (<[key := mkInteractions (attempt mi + 1)
                                    (requestResponses mi)]> (table w)))
            (cells w ++ [r]) (calls w)))
| next_panic mi :
    table w !! key = Some mi -> attempt mi < 0 ->
    next_case w key
      (Panicked (IndexOutOfRange (attempt mi) (length (requestResponses mi))) w).

(** The three ways [Interaction] can end. *)
Inductive interaction_case (w : World) (key : string) (i : Z)
    : outcome (option ptr) -> Prop :=
| interaction_none :
    (forall mi, table w !! key = Some mi -> len (requestResponses mi) <= i) ->
    interaction_case w key i (Returned None w)
| interaction_some mi r :
    table w !! key = Some mi -> 0 <= i ->
    requestResponses mi !! Z.to_nat i = Some r ->
    interaction_case w key i (Returned (Some (PElem key (Z.to_nat i))) w)
| interaction_panic mi :
    table w !! key = Some mi -> i < 0 ->
    interaction_case w key i
      (Panicked (IndexOutOfRange i (length (requestResponses mi))) w).

(** The world after a successful [NextInteraction] on [key]. *)
Definition consumed (w : World) (key : string) (mi : interactions)
    (r : RequestResponse) : World :=
  mkWorld
    (mkRegistry (<[key := mkInteractions (attempt mi + 1)
                            (requestResponses mi)]> (table w)))
    (cells w ++ [r]) (calls w).

(** The operation may change the map entry of [key]. *)
Definition touches (o : op) (key : string) : bool :=
  match o with
  | OpAdd method path _ => bool_decide (getKey method path = key)
  | OpNext method path => bool_decide (getKey method path = key)
  | OpReset => true
  | OpInteraction _ _ _ | OpAll _ _ => false
  end.

(** The records of a key that have not been handed out yet. *)
Definition pending (w : World) (key : string) : list RequestResponse :=
  drop (Z.to_nat (cursor w key)) (records w key).

(** The records that a series of [Add] calls for one method and path
    appends: those of the calls that return. *)
Definition added (method path : string) (adds : list add_args)
    : list RequestResponse :=
  omap (record_for method path) adds.

(** The two answers of a lookup: a record, or nil. *)
Definition found (r : RequestResponse) : result := RRecord (Some r).

Definition not_found : result := RRecord None.

(** The operation is an [Add] whose method and path derive [key]. *)
Definition adds_to (key : string) (o : op) : bool :=
  match o with
  | OpAdd method path _ => bool_decide (getKey method path = key)
  | _ => false
  end.

(** What [NextInteraction] and [Interaction] answer is a function of the map
    entry of the key alone. *)
Definition next_result (e : option interactions) : result :=
  match e with
  | None => not_found
  | Some mi =>
      if len (requestResponses mi) <=? attempt mi then not_found
      else match index (requestResponses mi) (attempt mi) with
           | inr r => found r
           | inl p => RPanic p
           end
  end.

Definition interaction_result (e : option interactions) (i : Z) : result :=
  match e with
  | None => not_found
  | Some mi =>
      if len (requestResponses mi) <=? i then not_found
      else match index (requestResponses mi) i with
           | inr r => found r
           | inl p => RPanic p
           end
  end.

(** A method without an underscore determines where the key splits. *)
Fixpoint has_underscore (s : string) : bool :=
  match s with
  | EmptyString => false
  | String c s' => if Ascii.eqb c "_"%char then true else has_underscore s'
  end.

(** The calls that one [Capture] on the record [v] makes. *)
Definition capture_calls (v : RequestResponse) (body : bytes)
    (headers : Header) : list (nat * bytes * Header) :=
  match RequestCaptureFunc_ v with
  | Some f => [(f, body, headers)]
  | None => []
  end.

(** ** Sample inputs *)

(** An [Add] with a JSON content type, no payload, no capture function and
    no options. *)
Definition plain_add (status : Z) : add_args := mkAdd status None "JSON" None [].

(** An option function that fails. *)
Definition failing_option (err : error) : HttpMockOptionFunc :=
  fun op => (op, Some err).

Definition sample_body : bytes := Some [Byte.x7b; Byte.x7d].

Definition sample_headers : Header := Some {[ "Accept" := ["*/*"] ]}.

(** ** Concurrent dispatch on one key

    Several goroutines call [NextInteraction] with the same method and path
    on one registry.  Each call is cut at the points where it touches the
    mutex or the shared map, and the calls interleave freely between these
    points.  [sync.RWMutex] is a lock that [Lock] takes only when it is free
    and [Unlock] frees.  A thread keeps the record it has copied, which is
    the value behind the pointer it returns. *)

(** Where one call of [NextInteraction] stands. *)
Inductive pc : Type :=
| Idle                                         (* before m.lock.Lock() *)
| Locked                                       (* Lock() has returned *)
| Copied (r : RequestResponse)                 (* requestResponse has been assigned *)
| Returning (res : panic + option RequestResponse)
                                               (* the result is fixed, the deferred Unlock is due *)
| Done (res : panic + option RequestResponse). (* Unlock() has run, the call is over *)

Record config : Type := mkConfig {
  shared : gmap string interactions;   (* m.interactions *)
  lock : option nat;                   (* the thread that holds m.lock *)
  threads : list pc
}.

Inductive step (key : string) : config -> config -> Prop :=
| step_Lock t c :
    threads c !! t = Some Idle -> lock c = None ->
    step key c (mkConfig (shared c) (Some t) (<[t := Locked]> (threads c)))
| step_not_found t c :
    threads c !! t = Some Locked ->
    (forall mi, shared c !! key = Some mi ->
                len (requestResponses mi) <= attempt mi) ->
    step key c
      (mkConfig (shared c) (lock c) (<[t := Returning (inr None)]> (threads c)))
| step_index t c mi :
    threads c !! t = Some Locked ->
    shared c !! key = Some mi ->
    attempt mi < len (requestResponses mi) ->
    step key c
      (mkConfig (shared c) (lock c)
         (<[t := match index (requestResponses mi) (attempt mi) with
                 | inr r => Copied r
                 | inl p => Returning (inl p)
                 end]> (threads c)))
| step_increment t c r mi :
    threads c !! t = Some (Copied r) ->
    shared c !! key = Some mi ->
    step key c
      (mkConfig
         (<[key := mkInteractions (attempt mi + 1) (requestResponses mi)]>
            (shared c))
         (lock c) (<[t := Returning (inr (Some r))]> (threads c)))
| step_Unlock t c res :
    threads c !! t = Some (Returning res) ->
    step key c (mkConfig (shared c) None (<[t := Done res]> (threads c))).

(** [n] calls that have not started, on the map [m]. *)
Definition start (m : gmap string interactions) (n : nat) : config :=
  mkConfig m None (replicate n Idle).

Definition is_done (p : pc) : bool :=
  match p with Done _ => true | _ => false end.

Definition all_done (c : config) : Prop :=
  Forall (fun p => is_done p = true) (threads c).

(** The number of steps a call still has to take, at most. *)
Definition steps_left (p : pc) : nat :=
  match p with
  | Idle => 4
  | Locked => 3
  | Copied _ => 2
  | Returning _ => 1
  | Done _ => 0
  end.

Definition work_left (c : config) : nat :=
  sum_list (steps_left <$> threads c).

(** The record a call holds, if it holds one. *)
Definition got (p : pc) : option RequestResponse :=
  match p with
  | Copied r | Returning (inr (Some r)) | Done (inr (Some r)) => Some r
  | _ => None
  end.

Definition in_critical_section (p : pc) : bool :=
  match p with
  | Locked | Copied _ | Returning _ => true
  | Idle | Done _ => false
  end.

(** The call ends without a record: with nil or with a panic. *)
Definition empty_handed (p : pc) : bool :=
  match p with
  | Returning (inr (Some _)) | Done (inr (Some _)) => false
  | Returning _ | Done _ => true
  | Idle | Locked | Copied _ => false
  end.

(** 1 while the holder of the lock has copied a record and not yet advanced
    the cursor, 0 otherwise. *)
Definition lag (c : config) : nat :=
  match lock c with
  | Some t => match threads c !! t with Some (Copied _) => 1%nat | _ => 0%nat end
  | None => 0%nat
  end.

(** [order] lists, without repetition, the threads that hold a record, and
    the thread at position [k] holds the record at index [a0 + k] of [rs]. *)
Definition order_ok (rs : list RequestResponse) (a0 : nat)
    (order : list nat) (ths : list pc) : Prop :=
  NoDup order /\
  (forall t, t ∈ order <-> exists p, ths !! t = Some p /\ is_Some (got p)) /\
  (forall k t p, order !! k = Some t -> ths !! t = Some p ->
                 got p = rs !! (a0 + k)%nat).

(** The invariant of the interleaved calls.  [rs] is the queue of the key,
    [a0] the cursor at the start, and [order] lists the threads that hold a
    record, in the order in which they copied it. *)
Record dispatch_inv (key : string) (rs : list RequestResponse) (a0 : nat)
    (order : list nat) (c : config) : Prop := mkInv {
  inv_order : order_ok rs a0 order (threads c);
  inv_ok : forall t p, threads c !! t = Some p -> empty_handed p = false;
  inv_cs : forall t p, threads c !! t = Some p ->
             (in_critical_section p = true <-> lock c = Some t);
  inv_holder : forall t, lock c = Some t -> is_Some (threads c !! t);
  inv_cursor : exists a : nat,
                 shared c !! key = Some (mkInteractions (Z.of_nat a) rs) /\
                 (a + lag c = a0 + length order)%nat;
  inv_enough : (a0 + length (threads c) <= length rs)%nat
}.

(** The next step of thread [t], when it can take one. *)
Definition fire (key : string) (t : nat) (c : config) : option config :=
  match threads c !! t with
  | Some Idle =>
      match lock c with
      | None => Some (mkConfig (shared c) (Some t) (<[t := Locked]> (threads c)))
      | Some _ => None
      end
  | Some Locked =>
      let next :=
        match shared c !! key with
        | None => Returning (inr None)
        | Some mi =>
            if len (requestResponses mi) <=? attempt mi
            then Returning (inr None)
            else match index (requestResponses mi) (attempt mi) with
                 | inr r => Copied r
                 | inl p => Returning (inl p)
                 end
        end in
      Some (mkConfig (shared c) (lock c) (<[t := next]> (threads c)))
  | Some (Copied r) =>
      match shared c !! key with
      | Some mi =>
          Some (mkConfig
                  (<[key := mkInteractions (attempt mi + 1)
                              (requestResponses mi)]> (shared c))
                  (lock c) (<[t := Returning (inr (Some r))]> (threads c)))
      | None => None
      end
  | Some (Returning res) =>
      Some (mkConfig (shared c) None (<[t := Done res]> (threads c)))
  | Some (Done _) | None => None
  end.

(** The threads named in [ts] take their next step, one after the other; a
    thread that cannot step is passed over. *)
Fixpoint schedule (key : string) (ts : list nat) (c : config) : config :=
  match ts with
  | [] => c
  | t :: ts' =>
      match fire key t c with
      | Some c' => schedule key ts' c'
      | None => schedule key ts' c
      end
  end.

(** The result of a call as a thread ends with it. *)
Definition thread_result (r : result) : panic + option RequestResponse :=
  match r with
  | RRecord v => inr v
  | RPanic p => inl p
  | RDone | RAll _ => inr None
  end.

(** ** The server

    [server.go]: the handler that the router runs for every request, and the
    methods of [Server] that reach the registry.  The gin context is reduced
    to what the handler uses of it: the method, the path, the body and the
    headers of the request, and the one response it writes. *)

(** The struct [errorResponse]; the fields are Message, Path and Method. *)
Record errorResponse : Type := mkErrorResponse {
  errMessage : string;
  errPath : string;
  errMethod : string
}.

Definition newErr (method path : string) : errorResponse :=
  mkErrorResponse
    "[MOCK WEB SERVER ERROR] does not have (any more) mock interactions for path/method"
    path method.

(** [http.StatusNotImplemented] *)
Definition StatusNotImplemented : Z := 501.

(** What the handler writes to the client. *)
Inductive response : Type :=
| JSON (status : Z) (obj : string)             (* c.JSON(status, mock.ResponseObject) *)
| XML (status : Z) (obj : string)              (* c.XML(status, mock.ResponseObject) *)
| Status (status : Z)                          (* c.Status(status) *)
| JSONError (status : Z) (e : errorResponse).  (* c.JSON(status, newErr(c)) *)

(** One request served: the time spent in [time.Sleep] and the response. *)
Record exchange : Type := mkExchange {
  slept : Z;
  written : response
}.

(** The branch of the handler for a mock with a response object or without. *)
Definition respond (mock : RequestResponse) : response :=
  match ResponseObject mock with
  | Some obj =>
      if String.eqb (ResponseContentType mock) "XML"
      then XML (ResponseHttpStatus mock) obj
      else JSON (ResponseHttpStatus mock) obj
  | None => Status (ResponseHttpStatus mock)
  end.

(** [if mock.DelayResponse > 0 { time.Sleep(mock.DelayResponse) }] *)
Definition sleep_of (mock : RequestResponse) : Z :=
  if 0 <? DelayResponse mock then DelayResponse mock else 0.

(** [func (s *Server) handler(c *gin.Context)] *)
Definition handler (method path : string) (bodyBytes : bytes)
    (headers : Header) : M exchange :=
  mock <- NextInteraction method path ;;
  match mock with
  | Some mock =>
      v <- read mock ;;
      let d := sleep_of v in
      Capture mock bodyBytes headers ;;;
      v <- read mock ;;
      ret (mkExchange d (respond v))
  | None =>
      ret (mkExchange 0 (JSONError StatusNotImplemented (newErr method path)))
  end.

(** [func (s *Server) AddInteraction(...)] *)
Definition AddInteraction (method path : string) (responseStatus : Z)
    (responseObject : any) (responseContentType : string)
    (requestCaptureFunc : RequestCaptureFunc)
    (opts : list HttpMockOptionFunc) : M unit :=
  Add method path responseStatus responseObject responseContentType
    requestCaptureFunc opts.

(** [func (s *Server) Reset()] *)
Definition Server_Reset : M unit := Reset.

(** [func (s *Server) WithLogger(logger)]: the server gets a new registry,
    made by [NewInteractions]; the one it had is dropped. *)
Definition WithLogger : M unit :=
  fun w => Returned tt (mkWorld NewInteractions (cells w) (calls w)).

(** What happens at a server: a call of a registry method, a request that
    the handler serves, or a call of [WithLogger]. *)
Inductive event : Type :=
| Call (o : op)
| Request (method path : string) (body : bytes) (headers : Header)
| SetLogger.

Inductive seen : Type :=
| Result (r : result)
| Served (e : exchange)
| Crashed (p : panic).

Definition serve1 (e : event) (w : World) : seen * World :=
  match e with
  | Call o => (Result (fst (run1 o w)), snd (run1 o w))
  | Request method path body headers =>
      match handler method path body headers w with
      | Returned x w' => (Served x, w')
      | Panicked p w' => (Crashed p, w')
      end
  | SetLogger => (Result RDone, world_of (WithLogger w))
  end.

Fixpoint serve (es : list event) (w : World) : list seen * World :=
  match es with
  | [] => ([], w)
  | e :: rest =>
      let '(s, w') := serve1 e w in
      let '(ss, w'') := serve rest w' in
      (s :: ss, w'')
  end.

(** What a request sees, given what [NextInteraction] answers. *)
Definition seen_for (method path : string) (r : result) : seen :=
  match r with
  | RRecord (Some mock) => Served (mkExchange (sleep_of mock) (respond mock))
  | RRecord None =>
      Served (mkExchange 0
                (JSONError StatusNotImplemented (newErr method path)))
  | RPanic p => Crashed p
  | RDone | RAll _ => Result r
  end.

(** ** One key as a queue *)

(** The cursor and the records of a key. *)
Definition view (w : World) (key : string) : Z * list RequestResponse :=
  (cursor w key, records w key).

(** What an operation does to the cursor and the records of [key]. *)
Definition queue_step (key : string) (o : op)
    (q : Z * list RequestResponse) : Z * list RequestResponse :=
  match o with
  | OpAdd method path a =>
      if bool_decide (getKey method path = key)
      then match record_for method path a with
           | Some r => (fst q, snd q ++ [r])
           | None => q
           end
      else q
  | OpNext method path =>
      if bool_decide (getKey method path = key)
      then if len (snd q) <=? fst q then q
           else if fst q <? 0 then q
           else (fst q + 1, snd q)
      else q
  | OpInteraction _ _ _ | OpAll _ _ => q
  | OpReset => (0, [])
  end.

(** The cursor lies within the records. *)
Definition queue_ok (q : Z * list RequestResponse) : Prop :=
  0 <= fst q <= len (snd q).

(** The records that the [Add] calls among [ops] append for [key]. *)
Fixpoint added_in (key : string) (ops : list op) : list RequestResponse :=
  match ops with
  | [] => []
  | OpAdd method path a :: rest =>
      if bool_decide (getKey method path = key)
      then match record_for method path a with
           | Some r => r :: added_in key rest
           | None => added_in key rest
           end
      else added_in key rest
  | _ :: rest => added_in key rest
  end.

(** The records that the [NextInteraction] calls for [key] among [ops]
    returned, given the results of [ops]. *)
Fixpoint handed_out (key : string) (ops : list op) (rs : list result)
    : list RequestResponse :=
  match ops, rs with
  | OpNext method path :: ops', RRecord (Some r) :: rs' =>
      if bool_decide (getKey method path = key)
      then r :: handed_out key ops' rs'
      else handed_out key ops' rs'
  | _ :: ops', _ :: rs' => handed_out key ops' rs'
  | _, _ => []
  end.

Definition is_reset (o : op) : bool :=
  match o with OpReset => true | _ => false end.

(** Reading [ops] from left to right with [n] records of [key] pending, no
    [NextInteraction] for [key] comes when none is pending. *)
Fixpoint never_short (key : string) (n : nat) (ops : list op) : bool :=
  match ops with
  | [] => true
  | OpAdd method path a :: rest =>
      if bool_decide (getKey method path = key)
      then match record_for method path a with
           | Some _ => never_short key (S n) rest
           | None => never_short key n rest
           end
      else never_short key n rest
  | OpNext method path :: rest =>
      if bool_decide (getKey method path = key)
      then match n with
           | O => false
           | S n' => never_short key n' rest
           end
      else never_short key n rest
  | OpReset :: rest => never_short key 0 rest
  | _ :: rest => never_short key n rest
  end.

(** The mutex admits a thread to the critical section, and no other. *)
Definition lock_inv (c : config) : Prop :=
  forall t p, threads c !! t = Some p ->
    (in_critical_section p = true <-> lock c = Some t).

(** ** Clients that register and then request

    As in [TestMockServer_AddInteractionConcurrently]: every goroutine adds
    one interaction and then sends one request for it.  The methods of the
    registry hold the mutex from their first to their last statement, so a
    run of the goroutines is an interleaving of whole calls. *)

(** The calls of one client, in program order. *)
Definition client (method path : string) (a : add_args) : list op :=
  [OpAdd method path a; OpNext method path].

(** [ops] is an interleaving of the programs [progs]: each step takes the
    next call of some program. *)
Inductive interleaving : list (list op) -> list op -> Prop :=
| interleaving_done progs :
    Forall (fun prog => prog = []) progs -> interleaving progs []
| interleaving_step progs i o rest ops :
    progs !! i = Some (o :: rest) ->
    interleaving (<[i := rest]> progs) ops ->
    interleaving progs (o :: ops).

(** What is left of a client of the key: both calls, the request only, or
    nothing. *)
Definition client_state (method path : string) (prog : list op) : Prop :=
  (exists a, prog = client method path a /\ is_Some (record_for method path a))
  \/ prog = [OpNext method path] \/ prog = [].

(** 1 for a client that has registered and not yet requested. *)
Definition waiting (prog : list op) : nat :=
  match prog with
  | [OpNext _ _] => 1%nat
  | _ => 0%nat
  end.

(** ** Concurrent dispatch with any number of callers *)

(** The call ends with nil. *)
Definition returns_nil (p : pc) : bool :=
  match p with
  | Returning (inr None) | Done (inr None) => true
  | _ => false
  end.

(** The call ends with a panic. *)
Definition panics (p : pc) : bool :=
  match p with
  | Returning (inl _) | Done (inl _) => true
  | _ => false
  end.

(** The invariant of the interleaved calls when the callers may outnumber
    the records: a call ends with nil only once every record of [rs] from
    [a0] on is held by a thread. *)
Record dispatch_inv_any (key : string) (rs : list RequestResponse)
    (a0 : nat) (order : list nat) (c : config) : Prop := mkInvAny {
  any_order : order_ok rs a0 order (threads c);
  any_no_panic : forall t p, threads c !! t = Some p -> panics p = false;
  any_nil : forall t p, threads c !! t = Some p -> returns_nil p = true ->
              (a0 + length order = length rs)%nat;
  any_cs : lock_inv c;
  any_holder : forall t, lock c = Some t -> is_Some (threads c !! t);
  any_cursor : exists a : nat,
                 shared c !! key = Some (mkInteractions (Z.of_nat a) rs) /\
                 (a + lag c = a0 + length order)%nat;
  any_bound : (a0 + length order <= length rs)%nat
}.

(** * Properties *)

(** ** The operations, one equation per branch of the source *)

Section Equations.

Variables (w : World) (method path : string).
Local Abbreviation key := (getKey method path).

Lemma table_set_table t : table (set_table t w) = t.
Proof. reflexivity. Qed.

Lemma Add_returns a r :
  record_for method path a = Some r ->
  perform (OpAdd method path a) w =
    Returned RDone
      (set_table (<[key := mkInteractions (cursor w key)
                                          (records w key ++ [r])]> (table w)) w).
Proof.
  unfold record_for, perform, Add, bind, get_table, lift, cursor, records.
  destruct (ProcessOptions (add_opts a)) as [p|o]; [done|].
  intros [= <-]. simpl. unfold put_table.
  destruct (table w !! key); reflexivity.
Qed.

Lemma Add_panics a :
  record_for method path a = None ->
  exists p, ProcessOptions (add_opts a) = inl p /\
            perform (OpAdd method path a) w = Panicked p w.
Proof.
  unfold record_for, perform, Add, bind, get_table, lift.
  destruct (ProcessOptions (add_opts a)) as [p|o]; [|done].
  intros _. exists p. split; reflexivity.
Qed.

Lemma Next_absent :
  table w !! key = None -> NextInteraction method path w = Returned None w.
Proof.
  intros H. unfold NextInteraction, bind, get_table.
  rewrite H. reflexivity.
Qed.

Lemma Next_exhausted mi :
  table w !! key = Some mi -> len (requestResponses mi) <= attempt mi ->
  NextInteraction method path w = Returned None w.
Proof.
  intros H Hle. unfold NextInteraction, bind, get_table.
  rewrite H. apply Z.leb_le in Hle. rewrite Hle. reflexivity.
Qed.

Lemma Next_found mi r :
  table w !! key = Some mi -> 0 <= attempt mi ->
  requestResponses mi !! Z.to_nat (attempt mi) = Some r ->
  NextInteraction method path w =
    Returned (Some (PCopy (length (cells w))))
      (mkWorld
         (mkRegistry (<[key := mkInteractions (attempt mi + 1)
                                 (requestResponses mi)]> (table w)))
         (cells w ++ [r]) (calls w)).
Proof.
  intros H H0 Hr. unfold NextInteraction, bind, get_table.
  rewrite H. apply lookup_lt_Some in Hr as Hlt.
  assert ((len (requestResponses mi) <=? attempt mi) = false) as ->
    by (apply Z.leb_gt; unfold len; lia).
  unfold lift, index. assert ((attempt mi <? 0) = false) as ->
    by (apply Z.ltb_ge; lia).
  rewrite Hr. reflexivity.
Qed.

Lemma Interaction_absent i :
  table w !! key = None -> Interaction method path i w = Returned None w.
Proof.
  intros H. unfold Interaction, bind, get_table.
  rewrite H. reflexivity.
Qed.

Lemma Interaction_beyond mi i :
  table w !! key = Some mi -> len (requestResponses mi) <= i ->
  Interaction method path i w = Returned None w.
Proof.
  intros H Hle. unfold Interaction, bind, get_table.
  rewrite H. apply Z.leb_le in Hle. rewrite Hle. reflexivity.
Qed.

Lemma Interaction_negative mi i :
  table w !! key = Some mi -> i < 0 ->
  Interaction method path i w =
    Panicked (IndexOutOfRange i (length (requestResponses mi))) w.
Proof.
  intros H Hneg. unfold Interaction, bind, get_table.
  rewrite H.
  assert ((len (requestResponses mi) <=? i) = false) as ->
    by (apply Z.leb_gt; unfold len; lia).
  unfold lift, index. apply Z.ltb_lt in Hneg. rewrite Hneg. reflexivity.
Qed.

Lemma Interaction_found mi i r :
  table w !! key = Some mi -> 0 <= i ->
  requestResponses mi !! Z.to_nat i = Some r ->
  Interaction method path i w = Returned (Some (PElem key (Z.to_nat i))) w.
Proof.
  intros H H0 Hr. unfold Interaction, bind, get_table.
  rewrite H. apply lookup_lt_Some in Hr as Hlt.
  assert ((len (requestResponses mi) <=? i) = false) as ->
    by (apply Z.leb_gt; unfold len; lia).
  unfold lift, index. assert ((i <? 0) = false) as -> by (apply Z.ltb_ge; lia).
  rewrite Hr. reflexivity.
Qed.

Lemma AllInteractions_records :
  AllInteractions method path w = Returned (records w key) w.
Proof.
  unfold AllInteractions, bind, get_table, records.
  destruct (table w !! key); reflexivity.
Qed.

End Equations.

(** ** Runs *)

Lemma run_app ops1 ops2 w :
  run (ops1 ++ ops2) w =
    (fst (run ops1 w) ++ fst (run ops2 (snd (run ops1 w))),
     snd (run ops2 (snd (run ops1 w)))).
Proof.
  revert w. induction ops1 as [|o ops1 IH]; intros w; simpl.
  - destruct (run ops2 w); reflexivity.
  - destruct (run1 o w) as [r w']. rewrite IH.
    destruct (run ops1 w') as [rs w'']. reflexivity.
Qed.

Lemma run_cons o ops w :
  run (o :: ops) w =
    (fst (run1 o w) :: fst (run ops (snd (run1 o w))),
     snd (run ops (snd (run1 o w)))).
Proof.
  simpl. destruct (run1 o w) as [r w']. simpl.
  destruct (run ops w'). reflexivity.
Qed.

Lemma Next_cases w method path :
  next_case w (getKey method path) (NextInteraction method path w).
Proof.
  destruct (table w !! getKey method path) as [mi|] eqn:H.
  - destruct (Z_le_gt_dec (len (requestResponses mi)) (attempt mi)) as [Hle|Hgt].
    + rewrite (Next_exhausted _ _ _ mi H Hle). constructor.
      intros mi' Hmi'. congruence.
    + destruct (Z_lt_le_dec (attempt mi) 0) as [Hneg|Hpos].
      * unfold NextInteraction, bind, get_table. rewrite H.
        assert ((len (requestResponses mi) <=? attempt mi) = false) as ->
          by (apply Z.leb_gt; lia).
        unfold lift, index. apply Z.ltb_lt in Hneg as Hb. rewrite Hb.
        by apply next_panic.
      * destruct (requestResponses mi !! Z.to_nat (attempt mi)) as [r|] eqn:Hr.
        -- rewrite (Next_found _ _ _ mi r H Hpos Hr). by eapply next_some.
        -- apply lookup_ge_None in Hr. unfold len in Hgt. lia.
  - rewrite (Next_absent _ _ _ H). constructor. intros mi Hmi. congruence.
Qed.

Lemma Interaction_cases w method path i :
  interaction_case w (getKey method path) i (Interaction method path i w).
Proof.
  destruct (table w !! getKey method path) as [mi|] eqn:H.
  - destruct (Z_lt_le_dec i 0) as [Hneg|Hpos].
    + rewrite (Interaction_negative _ _ _ mi i H Hneg). by apply interaction_panic.
    + destruct (requestResponses mi !! Z.to_nat i) as [r|] eqn:Hr.
      * rewrite (Interaction_found _ _ _ mi i r H Hpos Hr).
        by eapply interaction_some.
      * apply lookup_ge_None in Hr.
        rewrite (Interaction_beyond _ _ _ mi i H) by (unfold len; lia).
        constructor. intros mi' Hmi'. assert (mi' = mi) as -> by congruence.
        unfold len. lia.
  - rewrite (Interaction_absent _ _ _ i H). constructor.
    intros mi Hmi. congruence.
Qed.

Lemma load_consumed w key mi r :
  load (PCopy (length (cells w))) (consumed w key mi r) = Some r.
Proof. simpl. by apply list_lookup_middle. Qed.

Section Run1.

Variables (w : World) (method path : string).
Local Abbreviation key := (getKey method path).

Lemma run1_Add_some a r :
  record_for method path a = Some r ->
  run1 (OpAdd method path a) w =
    (RDone,
     set_table (<[key := mkInteractions (cursor w key)
                                        (records w key ++ [r])]> (table w)) w).
Proof. intros H. unfold run1. by rewrite (Add_returns _ _ _ _ _ H). Qed.

Lemma run1_Add_none a :
  record_for method path a = None ->
  exists p, ProcessOptions (add_opts a) = inl p /\
            run1 (OpAdd method path a) w = (RPanic p, w).
Proof.
  intros H. destruct (Add_panics w _ _ _ H) as (p & Hp & Hrun).
  exists p. split; [done|]. unfold run1. by rewrite Hrun.
Qed.

Lemma run1_Next_none :
  (forall mi, table w !! key = Some mi ->
              len (requestResponses mi) <= attempt mi) ->
  run1 (OpNext method path) w = (RRecord None, w).
Proof.
  intros H. unfold run1, perform, bind.
  destruct (Next_cases w method path) as [_|mi r Hmi H0 Hr|mi Hmi Hneg].
  - reflexivity.
  - apply lookup_lt_Some in Hr. specialize (H _ Hmi). unfold len in H. lia.
  - specialize (H _ Hmi). unfold len in H. lia.
Qed.

Lemma run1_Next_some mi r :
  table w !! key = Some mi -> 0 <= attempt mi ->
  requestResponses mi !! Z.to_nat (attempt mi) = Some r ->
  run1 (OpNext method path) w = (RRecord (Some r), consumed w key mi r).
Proof.
  intros Hmi H0 Hr. unfold run1, perform, bind.
  rewrite (Next_found _ _ _ mi r Hmi H0 Hr).
  fold (consumed w key mi r). unfold deref, bind, read.
  by rewrite load_consumed.
Qed.

Lemma run1_Interaction_none i :
  (forall mi, table w !! key = Some mi -> len (requestResponses mi) <= i) ->
  run1 (OpInteraction method path i) w = (RRecord None, w).
Proof.
  intros H. unfold run1, perform, bind.
  destruct (Interaction_cases w method path i) as [_|mi r Hmi H0 Hr|mi Hmi Hneg].
  - reflexivity.
  - apply lookup_lt_Some in Hr. specialize (H _ Hmi). unfold len in H. lia.
  - specialize (H _ Hmi). unfold len in H. lia.
Qed.

Lemma run1_Interaction_some mi i r :
  table w !! key = Some mi -> 0 <= i ->
  requestResponses mi !! Z.to_nat i = Some r ->
  run1 (OpInteraction method path i) w = (RRecord (Some r), w).
Proof.
  intros Hmi H0 Hr. unfold run1, perform, bind.
  rewrite (Interaction_found _ _ _ mi i r Hmi H0 Hr).
  unfold deref, bind, read, load. rewrite Hmi. simpl. by rewrite Hr.
Qed.

Lemma run1_Interaction_negative mi i :
  table w !! key = Some mi -> i < 0 ->
  run1 (OpInteraction method path i) w =
    (RPanic (IndexOutOfRange i (length (requestResponses mi))), w).
Proof.
  intros Hmi Hneg. unfold run1, perform, bind.
  by rewrite (Interaction_negative _ _ _ mi i Hmi Hneg).
Qed.

Lemma run1_All :
  run1 (OpAll method path) w = (RAll (records w key), w).
Proof.
  unfold run1, perform, bind. by rewrite AllInteractions_records.
Qed.

Lemma run1_Reset : run1 OpReset w = (RDone, set_table ∅ w).
Proof. reflexivity. Qed.

End Run1.

(** ** Frame: which keys an operation can change *)

Lemma run1_Interaction_world w method path i :
  snd (run1 (OpInteraction method path i) w) = w.
Proof.
  unfold run1, perform, bind.
  destruct (Interaction_cases w method path i) as [_|mi r Hmi H0 Hr|mi Hmi Hneg];
    try reflexivity.
  unfold deref, bind, read, load. rewrite Hmi. simpl. by rewrite Hr.
Qed.

Lemma run1_Next_table w method path :
  table (snd (run1 (OpNext method path) w)) = table w \/
  exists mi r,
    table w !! getKey method path = Some mi /\ 0 <= attempt mi /\
    requestResponses mi !! Z.to_nat (attempt mi) = Some r /\
    run1 (OpNext method path) w =
      (RRecord (Some r), consumed w (getKey method path) mi r).
Proof.
  unfold run1 at 1, perform, bind.
  destruct (Next_cases w method path) as [_|mi r Hmi H0 Hr|mi Hmi Hneg].
  - by left.
  - right. exists mi, r. repeat split; try done.
    by apply run1_Next_some.
  - by left.
Qed.

Lemma run1_Add_table w method path a :
  snd (run1 (OpAdd method path a) w) = w \/
  exists r, record_for method path a = Some r /\
    snd (run1 (OpAdd method path a) w) =
      set_table (<[getKey method path :=
                     mkInteractions (cursor w (getKey method path))
                       (records w (getKey method path) ++ [r])]> (table w)) w.
Proof.
  destruct (record_for method path a) as [r|] eqn:Hr.
  - right. exists r. split; [done|]. by rewrite (run1_Add_some _ _ _ _ _ Hr).
  - left. destruct (run1_Add_none w _ _ _ Hr) as (p & _ & ->). done.
Qed.

Lemma run1_frame o w key :
  touches o key = false ->
  table (snd (run1 o w)) !! key = table w !! key.
Proof.
  destruct o as [method path a|method path|method path i|method path|]; simpl;
    intros Ht.
  - apply bool_decide_eq_false in Ht.
    destruct (run1_Add_table w method path a) as [->|(r & _ & ->)]; [done|].
    rewrite table_set_table. by apply lookup_insert_ne.
  - apply bool_decide_eq_false in Ht.
    destruct (run1_Next_table w method path) as [->|(mi & r & _ & _ & _ & ->)];
      [done|].
    simpl. unfold table at 1. simpl. by apply lookup_insert_ne.
  - by rewrite run1_Interaction_world.
  - by rewrite run1_All.
  - discriminate.
Qed.

Lemma run_frame ops w key :
  Forall (fun o => touches o key = false) ops ->
  table (snd (run ops w)) !! key = table w !! key.
Proof.
  intros H. revert w. induction H as [|o ops Ho _ IH]; intros w; [done|].
  rewrite run_cons. simpl. rewrite IH. by apply run1_frame.
Qed.

(** ** The cursor stays within its queue *)

Lemma well_formed_NewWorld : well_formed NewWorld.
Proof. intros key mi H. unfold table in H. simpl in H. by rewrite lookup_empty in H. Qed.

Lemma well_formed_run1 o w : well_formed w -> well_formed (snd (run1 o w)).
Proof.
  intros Hw key mi.
  destruct o as [method path a|method path|method path i|method path|].
  - destruct (run1_Add_table w method path a) as [->|(r & _ & ->)]; [apply Hw|].
    rewrite table_set_table.
    destruct (decide (getKey method path = key)) as [<-|Hne].
    + rewrite lookup_insert_eq. intros [= <-]. unfold cursor_ok, cursor, records.
      simpl. unfold len. rewrite length_app. simpl.
      destruct (table w !! getKey method path) as [mi|] eqn:Hmi.
      * specialize (Hw _ _ Hmi). unfold cursor_ok, len in Hw. lia.
      * simpl. lia.
    + rewrite lookup_insert_ne by done. apply Hw.
  - destruct (run1_Next_table w method path)
      as [->|(mi' & r & Hmi' & H0 & Hr & ->)]; [apply Hw|].
    simpl. unfold table at 1. simpl.
    destruct (decide (getKey method path = key)) as [<-|Hne].
    + rewrite lookup_insert_eq. intros [= <-]. unfold cursor_ok. simpl.
      apply lookup_lt_Some in Hr. unfold len. lia.
    + rewrite lookup_insert_ne by done. apply Hw.
  - rewrite run1_Interaction_world. apply Hw.
  - rewrite run1_All. apply Hw.
  - rewrite run1_Reset. simpl. rewrite table_set_table. by rewrite lookup_empty.
Qed.

Lemma well_formed_run ops w : well_formed w -> well_formed (snd (run ops w)).
Proof.
  revert w. induction ops as [|o ops IH]; intros w Hw; [done|].
  rewrite run_cons. simpl. apply IH. by apply well_formed_run1.
Qed.

(** ** Queues are consumed first in, first out *)

Lemma records_consumed w key mi r :
  table w !! key = Some mi ->
  records (consumed w key mi r) key = records w key /\
  cursor (consumed w key mi r) key = cursor w key + 1.
Proof.
  intros Hmi. unfold records, cursor, consumed, table. simpl.
  rewrite lookup_insert_eq. unfold table in Hmi. by rewrite Hmi.
Qed.

Lemma pending_cons_inv w key r rest :
  0 <= cursor w key -> pending w key = r :: rest ->
  exists mi, table w !! key = Some mi /\
             requestResponses mi !! Z.to_nat (attempt mi) = Some r /\
             pending (consumed w key mi r) key = rest.
Proof.
  intros H0 Hp. unfold pending in Hp.
  assert (records w key !! Z.to_nat (cursor w key) = Some r) as Hr.
  { rewrite <- (Nat.add_0_r (Z.to_nat _)), <- lookup_drop, Hp. done. }
  destruct (table w !! key) as [mi|] eqn:Hmi.
  - exists mi. split; [done|].
    unfold pending. destruct (records_consumed w key mi r Hmi) as [-> ->].
    unfold records, cursor in *. rewrite Hmi in *. split; [done|].
    rewrite (drop_S _ _ _ Hr) in Hp. injection Hp as <-.
    f_equal. lia.
  - unfold records in Hr. rewrite Hmi in Hr. done.
Qed.

Lemma run_Next_none w method path m :
  (forall mi, table w !! getKey method path = Some mi ->
              len (requestResponses mi) <= attempt mi) ->
  run (repeat (OpNext method path) m) w = (repeat not_found m, w).
Proof.
  intros H. induction m as [|m IH]; [done|].
  simpl repeat. rewrite run_cons, (run1_Next_none _ _ _ H). simpl.
  by rewrite IH.
Qed.

Lemma run_Next_pending w method path :
  0 <= cursor w (getKey method path) ->
  let key := getKey method path in
  let w' := snd (run (repeat (OpNext method path) (length (pending w key))) w) in
  fst (run (repeat (OpNext method path) (length (pending w key))) w)
    = map found (pending w key) /\
  records w' key = records w key /\
  cursor w' key = cursor w key + len (pending w key) /\
  (forall k, k <> key -> table w' !! k = table w !! k).
Proof.
  intros H0. simpl.
  remember (pending w (getKey method path)) as l eqn:Hl. revert w H0 Hl.
  induction l as [|r rest IH]; intros w H0 Hl.
  - simpl. unfold len. simpl. repeat split; try done. lia.
  - symmetry in Hl.
    destruct (pending_cons_inv w _ r rest H0 Hl) as (mi & Hmi & Hr & Hrest).
    assert (0 <= attempt mi) as H0'
      by (unfold cursor in H0; by rewrite Hmi in H0).
    simpl length. simpl repeat. rewrite run_cons.
    rewrite (run1_Next_some w method path mi r Hmi H0' Hr). simpl.
    destruct (records_consumed w _ mi r Hmi) as [Hrec Hcur].
    destruct (IH (consumed w (getKey method path) mi r))
      as (IH1 & IH2 & IH3 & IH4).
    { rewrite Hcur. lia. }
    { by rewrite Hrest. }
    rewrite IH1, IH2, IH3, Hrec, Hcur. repeat split; try done.
    + unfold len. simpl length. lia.
    + intros k Hk. rewrite IH4 by done. unfold consumed, table. simpl.
      by apply lookup_insert_ne.
Qed.

Lemma records_set_insert w t key mi :
  records (set_table (<[key := mi]> t) w) key = requestResponses mi /\
  cursor (set_table (<[key := mi]> t) w) key = attempt mi.
Proof.
  unfold records, cursor. rewrite table_set_table, lookup_insert_eq. done.
Qed.

Lemma run_Adds w method path adds :
  let key := getKey method path in
  let w' := snd (run (map (OpAdd method path) adds) w) in
  records w' key = records w key ++ added method path adds /\
  cursor w' key = cursor w key /\
  (forall k, k <> key -> table w' !! k = table w !! k).
Proof.
  simpl. revert w.
  induction adds as [|a adds IH]; intros w.
  - simpl. by rewrite app_nil_r.
  - simpl map. rewrite run_cons. simpl.
    destruct (IH (snd (run1 (OpAdd method path a) w))) as (IH1 & IH2 & IH3).
    rewrite IH1, IH2. unfold added. simpl omap.
    destruct (record_for method path a) as [r|] eqn:Hr.
    + rewrite (run1_Add_some _ _ _ _ _ Hr). simpl.
      destruct (records_set_insert w (table w) (getKey method path)
                  (mkInteractions (cursor w (getKey method path))
                     (records w (getKey method path) ++ [r]))) as [-> ->].
      simpl. rewrite <- app_assoc. repeat split; try done.
      intros k Hk. specialize (IH3 k Hk).
      rewrite (run1_Add_some _ _ _ _ _ Hr) in IH3. simpl in IH3.
      rewrite IH3, table_set_table. by apply lookup_insert_ne.
    + destruct (run1_Add_none w _ _ _ Hr) as (p & _ & Hrun).
      rewrite Hrun in *. simpl in *. repeat split; done.
Qed.

Lemma exhausted_cursor w key :
  exhausted w key <-> cursor w key = len (records w key).
Proof.
  unfold exhausted, cursor, records. destruct (table w !! key); [done|].
  split; [reflexivity|done].
Qed.

Lemma exhausted_no_next w key :
  exhausted w key ->
  forall mi, table w !! key = Some mi ->
             len (requestResponses mi) <= attempt mi.
Proof.
  unfold exhausted. intros H mi Hmi. rewrite Hmi in H. lia.
Qed.

Lemma pending_exhausted_app w w' key l :
  exhausted w key ->
  records w' key = records w key ++ l -> cursor w' key = cursor w key ->
  pending w' key = l.
Proof.
  intros He Hr Hc. apply exhausted_cursor in He.
  unfold pending. rewrite Hr, Hc, He. unfold len. rewrite Nat2Z.id.
  by rewrite drop_app_length.
Qed.

(** An [Add] that returns on an exhausted key makes its record the next one
    handed out. *)
Lemma Add_then_Next w method path a R :
  exhausted w (getKey method path) ->
  record_for method path a = Some R ->
  fst (run [OpAdd method path a; OpNext method path] w) = [RDone; found R].
Proof.
  intros He HR. apply exhausted_cursor in He.
  rewrite !run_cons, (run1_Add_some _ _ _ _ _ HR). cbn [fst snd].
  erewrite run1_Next_some; [reflexivity| | |].
  - rewrite table_set_table. apply lookup_insert_eq.
  - simpl. rewrite He. unfold len. lia.
  - simpl. rewrite He. unfold len. rewrite Nat2Z.id.
    by apply list_lookup_middle.
Qed.

(** C1 (FIFO, then "not found").  Take a key with nothing left to hand out
    (in particular a key that was never registered) and any series of [Add]
    calls for it; let R1..Rn be the records these calls append.  With no
    [Reset] in between, the next n [NextInteraction] calls for the key
    return R1..Rn in that order, every further call returns nil, the key is
    exhausted again, and one more [Add] makes its record the next one
    returned. *)
Theorem fifo_then_not_found (w : World) (method path : string)
    (adds : list add_args) (m : nat) :
  exhausted w (getKey method path) ->
  let Rs := added method path adds in
  let w1 := snd (run (map (OpAdd method path) adds) w) in
  let nexts := repeat (OpNext method path) (length Rs + m) in
  fst (run nexts w1) = map found Rs ++ repeat not_found m /\
  exhausted (snd (run nexts w1)) (getKey method path) /\
  forall a R, record_for method path a = Some R ->
    fst (run [OpAdd method path a; OpNext method path] (snd (run nexts w1)))
      = [RDone; found R].
Proof.
  intros He. simpl.
  destruct (run_Adds w method path adds) as (Hrec & Hcur & _). simpl in *.
  set (w1 := snd (run (map (OpAdd method path) adds) w)) in *.
  pose proof (pending_exhausted_app w w1 _ _ He Hrec Hcur) as Hpend.
  assert (0 <= cursor w1 (getKey method path)) as H0.
  { rewrite Hcur. apply exhausted_cursor in He. rewrite He. unfold len. lia. }
  destruct (run_Next_pending w1 method path H0) as (Hout & Hrec2 & Hcur2 & _).
  simpl in *. rewrite Hpend in *.
  set (w2 := snd (run (repeat (OpNext method path)
                         (length (added method path adds))) w1)) in *.
  assert (exhausted w2 (getKey method path)) as He2.
  { apply exhausted_cursor. rewrite Hcur2, Hrec2, Hrec, Hcur.
    apply exhausted_cursor in He. rewrite He. unfold len.
    rewrite length_app. lia. }
  rewrite repeat_app, run_app. cbn [fst snd]. fold w2.
  rewrite (run_Next_none w2 method path m (exhausted_no_next _ _ He2)).
  cbn [fst snd]. rewrite Hout. repeat split; try done.
  intros a R HR. by apply Add_then_Next.
Qed.

Lemma fifo_then_not_found_witness :
  exhausted NewWorld (getKey "GET" "/") /\
  fst (run (repeat (OpNext "GET" "/") 3)
         (snd (run [OpAdd "GET" "/" (plain_add 200);
                    OpAdd "GET" "/" (plain_add 404)] NewWorld)))
    = [found (NewRequestResponse "GET" "/" 200 None "JSON" None (mkOptions 0));
       found (NewRequestResponse "GET" "/" 404 None "JSON" None (mkOptions 0));
       not_found].
Proof.
  split; [exact I|].
  exact (proj1 (fifo_then_not_found NewWorld "GET" "/"
                  [plain_add 200; plain_add 404] 1 I)).
Defined.

(** ** Reset *)

Lemma absent_run1 o w key :
  adds_to key o = false -> table w !! key = None ->
  table (snd (run1 o w)) !! key = None.
Proof.
  intros Ha Hnone.
  destruct o as [method path a|method path|method path i|method path|].
  - rewrite run1_frame; [done|]. exact Ha.
  - destruct (run1_Next_table w method path)
      as [->|(mi & r & Hmi & _ & _ & ->)]; [done|].
    simpl. unfold table at 1. simpl.
    destruct (decide (getKey method path = key)) as [<-|Hne]; [congruence|].
    by rewrite lookup_insert_ne.
  - by rewrite run1_Interaction_world.
  - by rewrite run1_All.
  - rewrite run1_Reset. simpl. by rewrite table_set_table, lookup_empty.
Qed.

Lemma absent_run ops w key :
  Forall (fun o => adds_to key o = false) ops -> table w !! key = None ->
  table (snd (run ops w)) !! key = None.
Proof.
  intros H. revert w. induction H as [|o ops Ho _ IH]; intros w Hw; [done|].
  rewrite run_cons. simpl. apply IH. by apply absent_run1.
Qed.

Lemma absent_not_found w method path :
  table w !! getKey method path = None ->
  run1 (OpNext method path) w = (not_found, w) /\
  run1 (OpAll method path) w = (RAll [], w).
Proof.
  intros H. split.
  - apply run1_Next_none. intros mi Hmi. congruence.
  - rewrite run1_All. unfold records. by rewrite H.
Qed.

(** C8 (Reset).  After [Reset], and for as long as no [Add] for the key
    occurs, whatever else is called, [NextInteraction] for the key returns
    nil and [AllInteractions] for the key returns the empty list; this holds
    for every key, whatever was registered for it before the [Reset]. *)
Theorem reset_forgets_every_key (w : World) (method path : string)
    (ops : list op) :
  Forall (fun o => adds_to (getKey method path) o = false) ops ->
  let w' := snd (run (OpReset :: ops) w) in
  run1 (OpNext method path) w' = (not_found, w') /\
  run1 (OpAll method path) w' = (RAll [], w').
Proof.
  intros Hops w'. apply absent_not_found. unfold w'.
  rewrite run_cons. cbn [snd]. apply absent_run; [done|].
  rewrite run1_Reset. simpl. by rewrite table_set_table, lookup_empty.
Qed.

Lemma reset_forgets_every_key_witness :
  let before := [OpAdd "GET" "/k" (plain_add 200); OpAdd "GET" "/k" (plain_add 201)] in
  let after := [OpNext "GET" "/k"; OpAdd "POST" "/k" (plain_add 202);
                OpInteraction "GET" "/k" 0] in
  let w' := snd (run (OpReset :: after) (snd (run before NewWorld))) in
  fst (run1 (OpAll "GET" "/k") (snd (run before NewWorld))) <> RAll [] /\
  run1 (OpNext "GET" "/k") w' = (not_found, w') /\
  run1 (OpAll "GET" "/k") w' = (RAll [], w').
Proof.
  split; [vm_compute; discriminate|].
  apply (reset_forgets_every_key _ "GET" "/k").
  repeat constructor.
Defined.

(** ** Cursors only move forward *)

Lemma run1_monotone o w key mi :
  o <> OpReset -> table w !! key = Some mi ->
  exists mi', table (snd (run1 o w)) !! key = Some mi' /\
              attempt mi <= attempt mi' /\
              requestResponses mi `prefix_of` requestResponses mi'.
Proof.
  intros Ho Hmi.
  assert (exists mi', table w !! key = Some mi' /\ attempt mi <= attempt mi' /\
            requestResponses mi `prefix_of` requestResponses mi') as Hsame
    by (exists mi; repeat split; [done|lia|done]).
  destruct o as [method path a|method path|method path i|method path|].
  - destruct (run1_Add_table w method path a) as [->|(r & _ & ->)]; [done|].
    rewrite table_set_table.
    destruct (decide (getKey method path = key)) as [<-|Hne].
    + rewrite lookup_insert_eq. eexists. split; [done|].
      unfold cursor, records. rewrite Hmi. simpl. split; [lia|].
      by apply prefix_app_r.
    + by rewrite lookup_insert_ne.
  - destruct (run1_Next_table w method path)
      as [->|(mi' & r & Hmi' & _ & _ & ->)]; [done|].
    simpl. unfold table at 1. simpl.
    destruct (decide (getKey method path = key)) as [<-|Hne].
    + rewrite lookup_insert_eq. eexists. split; [done|].
      assert (mi' = mi) as -> by congruence. simpl. split; [lia|done].
    + by rewrite lookup_insert_ne.
  - by rewrite run1_Interaction_world.
  - by rewrite run1_All.
  - done.
Qed.

Lemma run1_created o w key mi' :
  table w !! key = None -> table (snd (run1 o w)) !! key = Some mi' ->
  attempt mi' = 0.
Proof.
  intros Hnone.
  destruct o as [method path a|method path|method path i|method path|].
  - destruct (run1_Add_table w method path a) as [->|(r & _ & ->)];
      [congruence|].
    rewrite table_set_table.
    destruct (decide (getKey method path = key)) as [<-|Hne].
    + rewrite lookup_insert_eq. intros [= <-]. simpl. unfold cursor.
      by rewrite Hnone.
    + rewrite lookup_insert_ne by done. congruence.
  - rewrite (absent_run1 (OpNext method path) w key); [done|done|done].
  - rewrite run1_Interaction_world. congruence.
  - rewrite run1_All. simpl. congruence.
  - rewrite run1_Reset. simpl. by rewrite table_set_table, lookup_empty.
Qed.

Lemma run1_stays_exhausted o w key :
  adds_to key o = false -> exhausted w key ->
  exhausted (snd (run1 o w)) key.
Proof.
  intros Ha He.
  destruct o as [method path a|method path|method path i|method path|].
  - unfold exhausted. rewrite run1_frame; [done|]. exact Ha.
  - destruct (decide (getKey method path = key)) as [<-|Hne].
    + rewrite (run1_Next_none w method path (exhausted_no_next _ _ He)). done.
    + unfold exhausted. rewrite run1_frame; [done|].
      simpl. by apply bool_decide_eq_false.
  - by rewrite run1_Interaction_world.
  - by rewrite run1_All.
  - unfold exhausted. rewrite run1_Reset. simpl.
    by rewrite table_set_table, lookup_empty.
Qed.

(** C6 (cursor invariants).  In every state [w] that a sequence of
    operations reaches from the empty registry, and for every next operation
    [o]: each cursor lies between 0 and the length of its queue; a queue
    that [o] creates starts with cursor 0; unless [o] is [Reset], every
    queue is still there after [o], its cursor is not lower and its records
    are extended at most at the tail; and a key that is exhausted stays
    exhausted, with [NextInteraction] returning nil, unless [o] is an [Add]
    for that key. *)
Theorem cursor_invariants (ops : list op) (o : op) :
  let w := snd (run ops NewWorld) in
  let w' := snd (run1 o w) in
  (forall key mi, table w !! key = Some mi ->
     0 <= attempt mi <= len (requestResponses mi)) /\
  (forall key mi', table w !! key = None -> table w' !! key = Some mi' ->
     attempt mi' = 0) /\
  (o <> OpReset -> forall key mi, table w !! key = Some mi ->
     exists mi', table w' !! key = Some mi' /\ attempt mi <= attempt mi' /\
                 requestResponses mi `prefix_of` requestResponses mi') /\
  (forall method path,
     exhausted w (getKey method path) ->
     adds_to (getKey method path) o = false ->
     exhausted w' (getKey method path) /\
     run1 (OpNext method path) w' = (not_found, w')).
Proof.
  intros w w'. split; [|split; [|split]].
  - apply (well_formed_run ops NewWorld well_formed_NewWorld).
  - intros key mi' Hnone Hsome. by apply (run1_created o w key).
  - intros Ho key mi Hmi. by apply run1_monotone.
  - intros method path He Ha.
    assert (exhausted w' (getKey method path)) as He'
      by (by apply run1_stays_exhausted).
    split; [done|]. apply run1_Next_none. by apply exhausted_no_next.
Qed.

(** ** Interaction: reading by attempt index *)

(** For an index that is not negative, [Interaction] is a read: it returns
    the record at that index, or nil when there is none, and changes
    nothing. *)
Lemma Interaction_not_negative w method path i :
  0 <= i ->
  run1 (OpInteraction method path i) w =
    (RRecord (records w (getKey method path) !! Z.to_nat i), w).
Proof.
  intros H0. unfold records.
  destruct (table w !! getKey method path) as [mi|] eqn:Hmi.
  - destruct (requestResponses mi !! Z.to_nat i) as [r|] eqn:Hr.
    + by apply (run1_Interaction_some _ _ _ mi).
    + apply run1_Interaction_none. intros mi' Hmi'.
      assert (mi' = mi) as -> by congruence.
      apply lookup_ge_None in Hr. unfold len. lia.
  - apply run1_Interaction_none. intros mi Hmi'. congruence.
Qed.

(** C7, at a negative index.  The guard of [Interaction] only compares the
    index with the length of the queue, so on a registered key the index -1
    reaches the slice access and the call panics instead of returning nil. *)
Theorem Interaction_negative_attempt_panics :
  let w := snd (run [OpAdd "GET" "/" (plain_add 200)] NewWorld) in
  Interaction "GET" "/" (-1) w = Panicked (IndexOutOfRange (-1) 1) w /\
  Interaction "GET" "/" 1 w = Returned None w /\
  Interaction "GET" "/" 0 w = Returned (Some (PElem "GET_/" 0)) w.
Proof. vm_compute. done. Qed.

(** ** Keys *)

Lemma run1_Next_result w method path :
  fst (run1 (OpNext method path) w)
    = next_result (table w !! getKey method path).
Proof.
  unfold run1, perform, NextInteraction, bind, get_table, next_result.
  destruct (table w !! getKey method path) as [mi|]; [|done].
  destruct (len (requestResponses mi) <=? attempt mi); [done|].
  destruct (index (requestResponses mi) (attempt mi)) as [p|r]; [done|].
  simpl. unfold read, load, bind. simpl.
  by rewrite (list_lookup_middle (cells w) [] r _ eq_refl).
Qed.

Lemma run1_Interaction_result w method path i :
  fst (run1 (OpInteraction method path i) w)
    = interaction_result (table w !! getKey method path) i.
Proof.
  unfold run1, perform, Interaction, bind, get_table, interaction_result.
  destruct (table w !! getKey method path) as [mi|] eqn:Hmi; [|done].
  destruct (len (requestResponses mi) <=? i); [done|].
  unfold index. destruct (i <? 0); [done|].
  destruct (requestResponses mi !! Z.to_nat i) as [r|] eqn:Hr; [|done].
  simpl. unfold read, load, bind. rewrite Hmi. simpl. by rewrite Hr.
Qed.

(** X15 (isolation between keys).  Operations none of which is an [Add] or
    a [NextInteraction] deriving the key of a pair, nor a [Reset], leave
    what [NextInteraction], [Interaction] and [AllInteractions] answer for
    that pair as it is. *)
Lemma isolation_between_keys ops w method path i :
  Forall (fun o => touches o (getKey method path) = false) ops ->
  let w' := snd (run ops w) in
  fst (run1 (OpNext method path) w') = fst (run1 (OpNext method path) w) /\
  fst (run1 (OpInteraction method path i) w')
    = fst (run1 (OpInteraction method path i) w) /\
  fst (run1 (OpAll method path) w') = fst (run1 (OpAll method path) w).
Proof.
  intros Hops w'.
  pose proof (run_frame ops w _ Hops) as Hframe. fold w' in Hframe.
  rewrite !run1_Next_result, !run1_Interaction_result, !run1_All.
  unfold records. simpl. by rewrite Hframe.
Qed.

Lemma getKey_nil path : getKey EmptyString path = String "_" path.
Proof. reflexivity. Qed.

Lemma getKey_cons c method path :
  getKey (String c method) path = String c (getKey method path).
Proof. reflexivity. Qed.

Lemma getKey_injective method1 path1 method2 path2 :
  has_underscore method1 = false -> has_underscore method2 = false ->
  getKey method1 path1 = getKey method2 path2 ->
  method1 = method2 /\ path1 = path2.
Proof.
  revert method2.
  induction method1 as [|c m1 IH]; intros [|c2 m2];
    rewrite ?getKey_nil, ?getKey_cons; simpl; intros H1 H2 Heq.
  - by injection Heq as ->.
  - injection Heq as <- _. by rewrite Ascii.eqb_refl in H2.
  - injection Heq as -> _. by rewrite Ascii.eqb_refl in H1.
  - injection Heq as -> Heq.
    destruct (Ascii.eqb c2 "_"%char); [done|].
    destruct (IH m2 H1 H2 Heq) as [-> ->]. done.
Qed.

(** C4, at two pairs that derive one key.  The pairs (PUT, _/a) and
    (PUT_, /a) differ, yet [getKey] joins both to the same string, so they
    share one queue and one cursor: an [Add] for the first pair changes what
    [NextInteraction], [Interaction] and [AllInteractions] answer for the
    second, and a [NextInteraction] for the first consumes the record of the
    second. *)
Theorem distinct_pairs_share_a_queue :
  let r1 := NewRequestResponse "PUT" "_/a" 200 None "JSON" None (mkOptions 0) in
  let r2 := NewRequestResponse "PUT_" "/a" 201 None "JSON" None (mkOptions 0) in
  let w1 := snd (run1 (OpAdd "PUT" "_/a" (plain_add 200)) NewWorld) in
  let w2 := snd (run1 (OpAdd "PUT_" "/a" (plain_add 201)) NewWorld) in
  ("PUT", "_/a") <> ("PUT_", "/a") /\
  getKey "PUT" "_/a" = getKey "PUT_" "/a" /\
  fst (run1 (OpNext "PUT_" "/a") NewWorld) = not_found /\
  fst (run1 (OpNext "PUT_" "/a") w1) = found r1 /\
  fst (run1 (OpInteraction "PUT_" "/a" 0) w1) = found r1 /\
  fst (run1 (OpAll "PUT_" "/a") w1) = RAll [r1] /\
  fst (run [OpNext "PUT_" "/a"] w2) = [found r2] /\
  fst (run [OpNext "PUT" "_/a"; OpNext "PUT_" "/a"] w2) = [found r2; not_found].
Proof. vm_compute. repeat split; done. Qed.

(** ** Options *)

Lemma ProcessOptions_from_app pre rest op :
  ProcessOptions_from (pre ++ rest) op =
    match ProcessOptions_from pre op with
    | inl p => inl p
    | inr op' => ProcessOptions_from rest op'
    end.
Proof.
  revert op. induction pre as [|fn pre IH]; intros op; simpl; [done|].
  destruct (fn op) as [op' [err|]]; [done|]. apply IH.
Qed.

(** C9 (a failing option aborts the registration).  When [Add] runs its
    option functions in order and one of them returns an error, the call
    panics there and then with that error, and the world after the call is
    the world before it: no record is appended and no queue is created or
    changed, for any key. *)
Theorem Add_aborts_on_option_error (w : World) (method path : string)
    (responseStatus : Z) (responseObject : any) (responseContentType : string)
    (requestCaptureFunc : RequestCaptureFunc)
    (pre post : list HttpMockOptionFunc) (fn : HttpMockOptionFunc)
    (op op' : HttpMockOptions) (err : error) :
  ProcessOptions pre = inr op ->
  fn op = (op', Some err) ->
  Add method path responseStatus responseObject responseContentType
      requestCaptureFunc (pre ++ fn :: post) w
    = Panicked (LoggerPanic "load option failed" err) w.
Proof.
  intros Hpre Hfn. unfold Add, bind, get_table, ProcessOptions.
  unfold ProcessOptions in Hpre.
  rewrite ProcessOptions_from_app, Hpre. simpl. by rewrite Hfn.
Qed.

Lemma Add_aborts_on_option_error_witness :
  let w := snd (run [OpAdd "GET" "/" (plain_add 200)] NewWorld) in
  Add "GET" "/" 500 None "JSON" None
      ([WithResponseDelay 5] ++ failing_option "bad option" :: [WithResponseDelay 7]) w
    = Panicked (LoggerPanic "load option failed" "bad option") w.
Proof.
  exact (Add_aborts_on_option_error _ "GET" "/" 500 None "JSON" None
           [WithResponseDelay 5] [WithResponseDelay 7]
           (failing_option "bad option") (mkOptions 5) (mkOptions 5)
           "bad option" eq_refl eq_refl).
Defined.

(** C10 (no validation of method and path).  For all strings [method] and
    [path], the empty string included, an [Add] whose options resolve
    returns, appends exactly its one record to the queue of the key and
    changes nothing else; a [NextInteraction] with the same strings then
    returns that record as soon as the earlier records of the key have been
    handed out, at once when there are none. *)
Theorem Add_accepts_every_method_and_path (w : World) (method path : string)
    (a : add_args) (options : HttpMockOptions) :
  ProcessOptions (add_opts a) = inr options ->
  let key := getKey method path in
  let R := NewRequestResponse method path (add_status a) (add_object a)
             (add_contentType a) (add_captureFunc a) options in
  let w' := snd (run1 (OpAdd method path a) w) in
  fst (run1 (OpAdd method path a) w) = RDone /\
  records w' key = records w key ++ [R] /\
  cursor w' key = cursor w key /\
  (forall k, k <> key -> table w' !! k = table w !! k) /\
  cells w' = cells w /\ calls w' = calls w /\
  (0 <= cursor w key <= len (records w key) ->
   fst (run (repeat (OpNext method path) (length (pending w key) + 1)) w')
     = map found (pending w key) ++ [found R]).
Proof.
  intros Hopts key R w'.
  assert (record_for method path a = Some R) as HR
    by (unfold record_for; by rewrite Hopts).
  pose proof (run1_Add_some w method path a R HR) as Hrun.
  subst w' key. rewrite Hrun. cbn [fst snd].
  destruct (records_set_insert w (table w) (getKey method path)
              (mkInteractions (cursor w (getKey method path))
                 (records w (getKey method path) ++ [R])))
    as [Hrec Hcur].
  rewrite Hrec, Hcur. simpl.
  repeat split; try done.
  - intros k Hk. rewrite table_set_table. by apply lookup_insert_ne.
  - intros [H0 Hle].
    set (w1 := set_table _ w) in *.
    assert (pending w1 (getKey method path)
            = pending w (getKey method path) ++ [R]) as Hpend.
    { unfold pending. rewrite Hrec, Hcur. simpl.
      apply drop_app_le. unfold len in Hle. lia. }
    assert (0 <= cursor w1 (getKey method path)) as H1
      by (rewrite Hcur; simpl; lia).
    destruct (run_Next_pending w1 method path H1) as [Hout _].
    rewrite Hpend, length_app, map_app in Hout. exact Hout.
Qed.

Lemma Add_accepts_every_method_and_path_witness :
  let R := NewRequestResponse EmptyString EmptyString 200 None "JSON" None
             (mkOptions 0) in
  fst (run [OpAdd EmptyString EmptyString (plain_add 200);
            OpNext EmptyString EmptyString;
            OpNext EmptyString EmptyString] NewWorld)
    = [RDone; found R; not_found] /\
  records (snd (run1 (OpAdd EmptyString EmptyString (plain_add 200)) NewWorld))
    "_" = [R].
Proof.
  split; [reflexivity|].
  exact (proj1 (proj2 (Add_accepts_every_method_and_path NewWorld EmptyString
                         EmptyString (plain_add 200) (mkOptions 0) eq_refl))).
Defined.

(** ** Capture *)

Lemma Capture_PCopy w c v body headers :
  cells w !! c = Some v ->
  Capture (PCopy c) body headers w =
    Returned tt (mkWorld (registry w) (<[c := captured v body headers]> (cells w))
                   (calls w ++ capture_calls v body headers)).
Proof.
  intros Hv. unfold Capture, bind, read, load, write, capture_calls.
  rewrite Hv. cbn [store registry cells calls].
  destruct (RequestCaptureFunc_ v) as [f|]; unfold call, ret; simpl; [done|].
  by rewrite app_nil_r.
Qed.

Lemma Capture_PElem w key i mi v body headers :
  table w !! key = Some mi -> requestResponses mi !! i = Some v ->
  Capture (PElem key i) body headers w =
    Returned tt
      (mkWorld
         (mkRegistry
            (<[key := mkInteractions (attempt mi)
                        (<[i := captured v body headers]> (requestResponses mi))]>
               (table w)))
         (cells w) (calls w ++ capture_calls v body headers)).
Proof.
  intros Hmi Hv. unfold Capture, bind, read, load, write, capture_calls.
  rewrite Hmi. simpl. rewrite Hv. cbn [store]. rewrite Hmi.
  destruct (RequestCaptureFunc_ v) as [f|]; unfold call, ret; simpl; [done|].
  by rewrite app_nil_r.
Qed.

(** X17 ([Capture] on a stored record).  [Capture] through the pointer that
    [Interaction] returns writes into the stored queue: the next
    [Interaction] at that index returns the record with the captured body
    and headers. *)
Lemma Capture_through_Interaction_is_stored w method path i p body headers :
  Interaction method path i w = Returned (Some p) w ->
  exists r,
    load p w = Some r /\
    let w2 := world_of (Capture p body headers w) in
    run1 (OpInteraction method path i) w2
      = (found (captured r body headers), w2).
Proof.
  intros H. pose proof (Interaction_cases w method path i) as Hc.
  rewrite H in Hc. inversion Hc as [|mi r Hmi H0 Hr|]; subst.
  exists r. split; [simpl; by rewrite Hmi|].
  rewrite (Capture_PElem _ _ _ mi r body headers Hmi Hr). cbn [world_of].
  apply (run1_Interaction_some _ method path
           (mkInteractions (attempt mi)
              (<[Z.to_nat i := captured r body headers]> (requestResponses mi)))).
  - unfold table. simpl. apply lookup_insert_eq.
  - done.
  - simpl. apply list_lookup_insert_eq. by eapply lookup_lt_Some.
Qed.

Lemma Next_returns_copy w method path p w1 :
  NextInteraction method path w = Returned (Some p) w1 ->
  exists mi r,
    table w !! getKey method path = Some mi /\ 0 <= attempt mi /\
    requestResponses mi !! Z.to_nat (attempt mi) = Some r /\
    p = PCopy (length (cells w)) /\
    w1 = consumed w (getKey method path) mi r.
Proof.
  intros H.
  destruct (Next_cases w method path) as [Hn|mi r Hmi H0 Hr|mi Hmi Hneg];
    [discriminate| |discriminate].
  injection H as <- <-. exists mi, r. done.
Qed.

Lemma same_table_same_answers w w' :
  table w' = table w ->
  forall method path i,
    fst (run1 (OpNext method path) w') = fst (run1 (OpNext method path) w) /\
    fst (run1 (OpInteraction method path i) w')
      = fst (run1 (OpInteraction method path i) w) /\
    fst (run1 (OpAll method path) w') = fst (run1 (OpAll method path) w).
Proof.
  intros Ht method path i.
  rewrite !run1_Next_result, !run1_Interaction_result, !run1_All.
  unfold records. simpl. by rewrite Ht.
Qed.

(** C3 (the returned record is a detached copy).  The pointer that
    [NextInteraction] returns addresses a heap cell of its own.  Writing any
    value through it, and [Capture] in particular, leaves the map of the
    registry, with every queue, record and cursor, exactly as it was, so
    [Interaction], [AllInteractions] and [NextInteraction] answer afterwards
    what they would have answered without the write. *)
Theorem NextInteraction_returns_detached_copy (w w1 : World)
    (method path : string) (p : ptr) :
  NextInteraction method path w = Returned (Some p) w1 ->
  (forall v, table (store p v w1) = table w1) /\
  forall body headers,
    let w2 := world_of (Capture p body headers w1) in
    table w2 = table w1 /\
    forall method' path' i,
      fst (run1 (OpInteraction method' path' i) w2)
        = fst (run1 (OpInteraction method' path' i) w1) /\
      fst (run1 (OpAll method' path') w2) = fst (run1 (OpAll method' path') w1) /\
      fst (run1 (OpNext method' path') w2) = fst (run1 (OpNext method' path') w1).
Proof.
  intros H.
  destruct (Next_returns_copy _ _ _ _ _ H) as (mi & r & Hmi & H0 & Hr & -> & ->).
  split; [done|]. intros body headers w2.
  assert (table w2 = table (consumed w (getKey method path) mi r)) as Ht.
  { unfold w2. erewrite Capture_PCopy; [done|]. apply load_consumed. }
  split; [done|]. intros method' path' i.
  destruct (same_table_same_answers _ _ Ht method' path' i) as (? & ? & ?).
  done.
Qed.

Lemma NextInteraction_returns_detached_copy_witness :
  let w := snd (run [OpAdd "GET" "/" (mkAdd 200 None "JSON" (Some 7%nat) [])]
                  NewWorld) in
  let w1 := world_of (NextInteraction "GET" "/" w) in
  let w2 := world_of (Capture (PCopy 0) sample_body sample_headers w1) in
  NextInteraction "GET" "/" w = Returned (Some (PCopy 0)) w1 /\
  table w2 = table w1 /\
  calls w2 = [(7%nat, sample_body, sample_headers)].
Proof.
  intros w w1 w2.
  assert (NextInteraction "GET" "/" w = Returned (Some (PCopy 0)) w1) as H
    by reflexivity.
  split; [exact H|]. split; [|reflexivity].
  exact (proj1 (proj2 (NextInteraction_returns_detached_copy w w1 "GET" "/"
                         (PCopy 0) H) sample_body sample_headers)).
Defined.

(** C2 as stated fails.  One record is registered for GET / and consumed by
    [NextInteraction]; [Capture] is called on the returned record with a
    body and headers.  [Interaction] at attempt 0 then returns the stored
    record, whose captured body and headers are still nil. *)
Lemma Capture_does_not_reach_the_registry :
  let w := snd (run [OpAdd "GET" "/" (plain_add 200)] NewWorld) in
  exists p w1 r,
    NextInteraction "GET" "/" w = Returned (Some p) w1 /\
    let w2 := world_of (Capture p sample_body sample_headers w1) in
    fst (run1 (OpInteraction "GET" "/" 0) w2) = found r /\
    CapturedRequestBody r <> sample_body /\
    CapturedRequestHeaders r <> sample_headers.
Proof.
  intros w.
  exists (PCopy 0), (world_of (NextInteraction "GET" "/" w)),
    (NewRequestResponse "GET" "/" 200 None "JSON" None (mkOptions 0)).
  split; [reflexivity|]. split; [reflexivity|]. split; discriminate.
Qed.

(** C2, amended.  Let [NextInteraction] consume the record at attempt index
    [i] of a key and return the pointer [p], and let [Capture] be called on
    [p] with a body and headers.  The call returns; the record behind [p],
    the caller's copy, then holds exactly that body and those headers; the
    capture function of the record, if it has one, has been called exactly
    once, with exactly those values, and nothing else has been called; and
    [Interaction] at index [i] returns the stored record as it was
    registered, untouched by the capture. *)
Theorem Capture_fills_the_returned_copy (w w1 : World) (method path : string)
    (p : ptr) (body : bytes) (headers : Header) :
  NextInteraction method path w = Returned (Some p) w1 ->
  let i := cursor w (getKey method path) in
  let w2 := world_of (Capture p body headers w1) in
  exists r,
    records w (getKey method path) !! Z.to_nat i = Some r /\
    load p w1 = Some r /\
    Capture p body headers w1 = Returned tt w2 /\
    load p w2 = Some (captured r body headers) /\
    calls w2 = calls w1 ++ capture_calls r body headers /\
    run1 (OpInteraction method path i) w2 = (found r, w2).
Proof.
  intros H i w2.
  destruct (Next_returns_copy _ _ _ _ _ H) as (mi & r & Hmi & H0 & Hr & -> & ->).
  pose proof (load_consumed w (getKey method path) mi r) as Hload.
  pose proof (Capture_PCopy _ _ _ body headers Hload) as Hcap.
  assert (i = attempt mi) as Hi by (unfold i, cursor; by rewrite Hmi).
  exists r. unfold w2. rewrite Hcap. cbn [world_of].
  split; [unfold records; by rewrite Hmi, Hi|].
  split; [done|]. split; [done|].
  split.
  { simpl. apply list_lookup_insert_eq. rewrite length_app. simpl. lia. }
  split; [done|].
  apply (run1_Interaction_some _ method path
           (mkInteractions (attempt mi + 1) (requestResponses mi))).
  - unfold table. simpl. apply lookup_insert_eq.
  - lia.
  - simpl. by rewrite Hi.
Qed.

Lemma Capture_fills_the_returned_copy_witness :
  let w := snd (run [OpAdd "GET" "/" (mkAdd 200 None "JSON" (Some 7%nat) [])]
                  NewWorld) in
  let w1 := world_of (NextInteraction "GET" "/" w) in
  let w2 := world_of (Capture (PCopy 0) sample_body sample_headers w1) in
  NextInteraction "GET" "/" w = Returned (Some (PCopy 0)) w1 /\
  exists r,
    records w (getKey "GET" "/") !! Z.to_nat (cursor w (getKey "GET" "/"))
      = Some r /\
    load (PCopy 0) w1 = Some r /\
    Capture (PCopy 0) sample_body sample_headers w1 = Returned tt w2 /\
    load (PCopy 0) w2 = Some (captured r sample_body sample_headers) /\
    calls w2 = calls w1 ++ capture_calls r sample_body sample_headers /\
    run1 (OpInteraction "GET" "/" (cursor w (getKey "GET" "/"))) w2
      = (found r, w2).
Proof.
  intros w w1 w2.
  assert (NextInteraction "GET" "/" w = Returned (Some (PCopy 0)) w1) as H
    by reflexivity.
  split; [exact H|].
  exact (Capture_fills_the_returned_copy w w1 "GET" "/" (PCopy 0) sample_body
           sample_headers H).
Defined.

(** ** Concurrent dispatch on one key *)

(** *** Updating one thread *)

Lemma lookup_thread_insert (l : list pc) t p t' q :
  <[t := p]> l !! t' = Some q ->
  (t' = t /\ q = p /\ (t < length l)%nat) \/ (t' <> t /\ l !! t' = Some q).
Proof.
  rewrite list_lookup_insert. case_decide as H.
  - destruct H as [-> Hlt]. intros [= <-]. by left.
  - intros Hq. destruct (decide (t' = t)) as [->|Hne]; [|by right].
    apply lookup_lt_Some in Hq. exfalso. apply H. split; [done|exact Hq].
Qed.

Lemma lookup_thread_insert_eq (l : list pc) t p p' :
  l !! t = Some p -> <[t := p']> l !! t = Some p'.
Proof. intros H. apply list_lookup_insert_eq. by eapply lookup_lt_Some. Qed.

Lemma work_left_insert (l : list pc) t p q :
  l !! t = Some p ->
  (sum_list (steps_left <$> <[t := q]> l) + steps_left p
   = sum_list (steps_left <$> l) + steps_left q)%nat.
Proof.
  revert t. induction l as [|x l IH]; intros [|t] H; simpl in *; try done.
  - injection H as ->. lia.
  - specialize (IH t H). unfold fmap in IH. lia.
Qed.

Lemma step_work_left key c c' :
  step key c c' -> (work_left c' < work_left c)%nat.
Proof.
  unfold work_left.
  destruct 1 as [t c Ht _|t c Ht _|t c mi Ht _ _|t c r mi Ht _|t c res Ht];
    simpl.
  - pose proof (work_left_insert _ t _ Locked Ht). simpl in *. lia.
  - pose proof (work_left_insert _ t _ (Returning (inr None)) Ht).
    simpl in *. lia.
  - destruct (index (requestResponses mi) (attempt mi)) as [p|r].
    + pose proof (work_left_insert _ t _ (Returning (inl p)) Ht).
      simpl in *. lia.
    + pose proof (work_left_insert _ t _ (Copied r) Ht). simpl in *. lia.
  - pose proof (work_left_insert _ t _ (Returning (inr (Some r))) Ht).
    simpl in *. lia.
  - pose proof (work_left_insert _ t _ (Done res) Ht). simpl in *. lia.
Qed.

(** *** The threads that hold a record *)

Section Order.

Variables (rs : list RequestResponse) (a0 : nat).

Lemma order_ok_same order ths t p p' :
  ths !! t = Some p -> got p' = got p ->
  order_ok rs a0 order ths -> order_ok rs a0 order (<[t := p']> ths).
Proof.
  intros Ht Hgot (Hnd & Hmem & Hrec). split; [done|]. split.
  - intros t'. rewrite Hmem. split; intros (q & Hq & Hs).
    + destruct (decide (t' = t)) as [->|Hne].
      * exists p'. rewrite (lookup_thread_insert_eq _ _ _ _ Ht).
        split; [done|]. rewrite Hgot. congruence.
      * exists q. by rewrite list_lookup_insert_ne.
    + apply lookup_thread_insert in Hq as [(-> & -> & _)|(Hne & Hq)].
      * exists p. split; [done|]. by rewrite <- Hgot.
      * by exists q.
  - intros k t' q Hk Hq.
    apply lookup_thread_insert in Hq as [(-> & -> & _)|(Hne & Hq)].
    + rewrite Hgot. by eapply Hrec.
    + by eapply Hrec.
Qed.

Lemma order_ok_snoc order ths t p p' r :
  ths !! t = Some p -> got p = None -> got p' = Some r ->
  rs !! (a0 + length order)%nat = Some r ->
  order_ok rs a0 order ths ->
  order_ok rs a0 (order ++ [t]) (<[t := p']> ths).
Proof.
  intros Ht Hnone Hsome Hr (Hnd & Hmem & Hrec).
  assert (t ∉ order) as Hnotin.
  { rewrite Hmem. intros (q & Hq & Hs). rewrite Ht in Hq.
    injection Hq as <-. rewrite Hnone in Hs. by destruct Hs. }
  split; [|split].
  - apply NoDup_app. split; [done|]. split; [|apply NoDup_singleton].
    intros x Hx. rewrite list_elem_of_singleton. by intros ->.
  - intros t'. rewrite elem_of_app, list_elem_of_singleton, Hmem.
    split.
    + intros [(q & Hq & Hs)| ->].
      * exists q. rewrite list_lookup_insert_ne; [done|].
        intros <-. rewrite Ht in Hq. injection Hq as <-.
        rewrite Hnone in Hs. by destruct Hs.
      * exists p'. rewrite (lookup_thread_insert_eq _ _ _ _ Ht).
        split; [done|]. by rewrite Hsome.
    + intros (q & Hq & Hs).
      apply lookup_thread_insert in Hq as [(-> & -> & _)|(Hne & Hq)].
      * by right.
      * left. by exists q.
  - intros k t' q Hk Hq. apply lookup_snoc_Some in Hk as [[Hlt Hk]|[-> <-]].
    + assert (t' <> t) as Hne.
      { intros ->. apply Hnotin. apply list_elem_of_lookup. by exists k. }
      rewrite list_lookup_insert_ne in Hq by done. by eapply Hrec.
    + rewrite (lookup_thread_insert_eq _ _ _ _ Ht) in Hq.
      injection Hq as <-. by rewrite Hsome.
Qed.

(** A thread that holds no record leaves room for one more. *)
Lemma order_ok_room order ths t p :
  ths !! t = Some p -> got p = None -> order_ok rs a0 order ths ->
  (length order < length ths)%nat.
Proof.
  intros Ht Hnone (Hnd & Hmem & _).
  assert (NoDup (t :: order)) as Hnd'.
  { apply NoDup_cons. split; [|done].
    rewrite Hmem. intros (q & Hq & Hs). rewrite Ht in Hq.
    injection Hq as <-. rewrite Hnone in Hs. by destruct Hs. }
  assert (t :: order ⊆+ seq 0 (length ths)) as Hsub.
  { apply NoDup_submseteq; [done|]. intros x Hx. apply elem_of_seq.
    apply elem_of_cons in Hx as [->|Hx].
    - apply lookup_lt_Some in Ht. lia.
    - apply Hmem in Hx as (q & Hq & _). apply lookup_lt_Some in Hq. lia. }
  apply submseteq_length in Hsub. rewrite length_seq in Hsub.
  simpl in Hsub. lia.
Qed.

(** When every thread holds a record, [order] lists all threads. *)
Lemma order_ok_all order ths :
  (forall t p, ths !! t = Some p -> is_Some (got p)) ->
  order_ok rs a0 order ths -> order ≡ₚ seq 0 (length ths).
Proof.
  intros Hall (Hnd & Hmem & _).
  apply NoDup_Permutation; [done|apply NoDup_seq|].
  intros t. rewrite Hmem, elem_of_seq. split.
  - intros (p & Hp & _). apply lookup_lt_Some in Hp. lia.
  - intros [_ Hlt]. simpl in Hlt.
    destruct (lookup_lt_is_Some_2 ths t Hlt) as [p Hp].
    exists p. split; [done|]. by eapply Hall.
Qed.

End Order.

(** *** The invariant holds at the start and is kept by every step *)

Lemma got_Done res : got (Done res) = got (Returning res).
Proof. reflexivity. Qed.

Lemma lag_holder c t p :
  lock c = Some t -> threads c !! t = Some p ->
  lag c = match p with Copied _ => 1%nat | _ => 0%nat end.
Proof. intros Hl Ht. unfold lag. by rewrite Hl, Ht. Qed.

Lemma dispatch_inv_start key rs a0 m n :
  m !! key = Some (mkInteractions (Z.of_nat a0) rs) ->
  (a0 + n <= length rs)%nat ->
  dispatch_inv key rs a0 [] (start m n).
Proof.
  intros Hm Hn. split; simpl.
  - split; [apply NoDup_nil_2|]. split.
    + intros t. split; [by intros ?%elem_of_nil|].
      intros (p & Hp & Hs). apply lookup_replicate in Hp as [-> _].
      by destruct Hs.
    + intros k t p Hk. done.
  - intros t p Hp. by apply lookup_replicate in Hp as [-> _].
  - intros t p Hp. apply lookup_replicate in Hp as [-> _]. done.
  - done.
  - exists a0. split; [done|]. unfold lag. simpl. lia.
  - by rewrite length_replicate.
Qed.

Section Step.

Variables (key : string) (rs : list RequestResponse) (a0 : nat).

(** The thread that stands after [Lock] reads a cursor that leaves it a
    record. *)
Lemma holder_reads order c t :
  dispatch_inv key rs a0 order c -> threads c !! t = Some Locked ->
  exists r, shared c !! key
              = Some (mkInteractions (Z.of_nat (a0 + length order)) rs) /\
            rs !! (a0 + length order)%nat = Some r.
Proof.
  intros [Hord Hok Hcs Hhold (a & Ha & Hlag) Hen] Ht.
  assert (lock c = Some t) as Hl by (by apply (Hcs t Locked)).
  rewrite (lag_holder c t Locked Hl Ht) in Hlag.
  assert (a = (a0 + length order)%nat) as -> by lia.
  pose proof (order_ok_room rs a0 order _ t Locked Ht eq_refl Hord) as Hroom.
  destruct (lookup_lt_is_Some_2 rs (a0 + length order)) as [r Hr]; [lia|].
  by exists r.
Qed.

Lemma index_found (l : list RequestResponse) (i : nat) r :
  l !! i = Some r -> index l (Z.of_nat i) = inr r.
Proof.
  intros H. unfold index.
  assert ((Z.of_nat i <? 0) = false) as -> by (apply Z.ltb_ge; lia).
  by rewrite Nat2Z.id, H.
Qed.

Lemma dispatch_inv_step order c c' :
  dispatch_inv key rs a0 order c -> step key c c' ->
  exists order', dispatch_inv key rs a0 order' c'.
Proof.
  intros Hinv Hstep.
  destruct Hstep as [t c Ht Hfree|t c Ht Hmiss|t c mi Ht Hmi Hlt
                    |t c r mi Ht Hmi|t c res Ht].
  - (* Lock *)
    destruct Hinv as [Hord Hok Hcs Hhold (a & Ha & Hlag) Hen].
    exists order. split; simpl.
    + by apply (order_ok_same rs a0 order _ t Idle).
    + intros t' q Hq.
      apply lookup_thread_insert in Hq as [(-> & -> & _)|(Hne & Hq)];
        [done|by eapply Hok].
    + intros t' q Hq.
      apply lookup_thread_insert in Hq as [(-> & -> & _)|(Hne & Hq)];
        [done|].
      specialize (Hcs t' q Hq). rewrite Hfree in Hcs.
      split; [intros H; apply Hcs in H; done|intros [= ->]; done].
    + intros t' [= <-]. rewrite (lookup_thread_insert_eq _ _ _ _ Ht). eauto.
    + exists a. split; [done|].
      unfold lag in *. simpl. rewrite Hfree in Hlag.
      by rewrite (lookup_thread_insert_eq _ _ _ _ Ht).
    + by rewrite length_insert.
  - (* not found: cannot happen *)
    destruct (holder_reads order c t Hinv Ht) as (r & Hs & Hr).
    specialize (Hmiss _ Hs). simpl in Hmiss.
    apply lookup_lt_Some in Hr. unfold len in Hmiss. lia.
  - (* the record is copied *)
    destruct (holder_reads order c t Hinv Ht) as (r & Hs & Hr).
    assert (mi = mkInteractions (Z.of_nat (a0 + length order)) rs) as ->
      by congruence.
    simpl. rewrite (index_found _ _ _ Hr).
    destruct Hinv as [Hord Hok Hcs Hhold (a & Ha & Hlag) Hen].
    assert (lock c = Some t) as Hl by (by apply (Hcs t Locked)).
    exists (order ++ [t]). split; simpl.
    + by apply (order_ok_snoc rs a0 order _ t Locked _ r).
    + intros t' q Hq.
      apply lookup_thread_insert in Hq as [(-> & -> & _)|(Hne & Hq)];
        [done|by eapply Hok].
    + intros t' q Hq.
      apply lookup_thread_insert in Hq as [(-> & -> & _)|(Hne & Hq)];
        [done|by apply Hcs].
    + intros t' Ht'. apply lookup_lt_is_Some. rewrite length_insert.
      apply lookup_lt_is_Some. by apply Hhold.
    + exists (a0 + length order)%nat. split; [done|].
      unfold lag. simpl. rewrite Hl, (lookup_thread_insert_eq _ _ _ _ Ht).
      rewrite length_app. simpl. lia.
    + by rewrite length_insert.
  - (* the cursor advances *)
    destruct Hinv as [Hord Hok Hcs Hhold (a & Ha & Hlag) Hen].
    assert (lock c = Some t) as Hl by (by apply (Hcs t (Copied r))).
    rewrite (lag_holder c t _ Hl Ht) in Hlag.
    assert (mi = mkInteractions (Z.of_nat a) rs) as -> by congruence.
    exists order. split; simpl.
    + by apply (order_ok_same rs a0 order _ t (Copied r)).
    + intros t' q Hq.
      apply lookup_thread_insert in Hq as [(-> & -> & _)|(Hne & Hq)];
        [done|by eapply Hok].
    + intros t' q Hq.
      apply lookup_thread_insert in Hq as [(-> & -> & _)|(Hne & Hq)];
        [done|by apply Hcs].
    + intros t' Ht'. apply lookup_lt_is_Some. rewrite length_insert.
      apply lookup_lt_is_Some. by apply Hhold.
    + exists (a + 1)%nat. split.
      * rewrite lookup_insert_eq. do 2 f_equal. lia.
      * unfold lag. simpl.
        rewrite Hl, (lookup_thread_insert_eq _ _ _ _ Ht). lia.
    + by rewrite length_insert.
  - (* Unlock *)
    destruct Hinv as [Hord Hok Hcs Hhold (a & Ha & Hlag) Hen].
    assert (lock c = Some t) as Hl by (by apply (Hcs t (Returning res))).
    rewrite (lag_holder c t _ Hl Ht) in Hlag.
    exists order. split; simpl.
    + by apply (order_ok_same rs a0 order _ t (Returning res)).
    + intros t' q Hq.
      apply lookup_thread_insert in Hq as [(-> & -> & _)|(Hne & Hq)];
        [by apply (Hok t (Returning res))|by eapply Hok].
    + intros t' q Hq.
      apply lookup_thread_insert in Hq as [(-> & -> & _)|(Hne & Hq)];
        [done|].
      specialize (Hcs t' q Hq). rewrite Hl in Hcs.
      split; [intros H; apply Hcs in H; congruence|done].
    + done.
    + exists a. split; [done|]. unfold lag. simpl. lia.
    + by rewrite length_insert.
Qed.

Lemma dispatch_inv_reachable order c c' :
  dispatch_inv key rs a0 order c -> rtc (step key) c c' ->
  exists order', dispatch_inv key rs a0 order' c'.
Proof.
  intros Hinv Hsteps. revert order Hinv.
  induction Hsteps as [c|c c1 c' Hstep _ IH]; intros order Hinv; [eauto|].
  destruct (dispatch_inv_step order c c1 Hinv Hstep) as [order1 Hinv1].
  by eapply IH.
Qed.

End Step.

(** *** Progress and the final configuration *)

Lemma idle_or_done (l : list pc) :
  (forall t p, l !! t = Some p -> in_critical_section p = false) ->
  Forall (fun p => is_done p = true) l \/ exists t, l !! t = Some Idle.
Proof.
  induction l as [|p l IH]; intros H; [by left|].
  destruct IH as [IH|[t Ht]].
  - intros t q Hq. by apply (H (S t)).
  - specialize (H 0%nat p eq_refl).
    destruct p; try discriminate; [right; by exists 0%nat|].
    left. by constructor.
  - right. by exists (S t).
Qed.

Lemma dispatch_progress key rs a0 order c :
  dispatch_inv key rs a0 order c ->
  all_done c \/ exists c', step key c c'.
Proof.
  intros Hinv. destruct (lock c) as [t|] eqn:Hl.
  - right. destruct (inv_holder _ _ _ _ _ Hinv t Hl) as [p Hp].
    pose proof (proj2 (inv_cs _ _ _ _ _ Hinv t p Hp) Hl) as Hin.
    destruct p as [| |r|res|res]; try discriminate.
    + destruct (holder_reads key rs a0 order c t Hinv Hp) as (r & Hs & Hr).
      eexists. eapply step_index; [done|done|].
      simpl. apply lookup_lt_Some in Hr. unfold len. lia.
    + destruct (inv_cursor _ _ _ _ _ Hinv) as (a & Ha & _).
      eexists. by eapply step_increment.
    + eexists. by eapply step_Unlock.
  - destruct (idle_or_done (threads c)) as [Hd|[t Ht]].
    + intros t p Hp. pose proof (inv_cs _ _ _ _ _ Hinv t p Hp) as Hcs.
      rewrite Hl in Hcs. destruct (in_critical_section p); [|done].
      discriminate (proj1 Hcs eq_refl).
    + by left.
    + right. eexists. by eapply step_Lock.
Qed.

Lemma dispatch_all_done key rs a0 order c :
  dispatch_inv key rs a0 order c -> all_done c ->
  length (drop a0 rs) = length (threads c) ->
  order ≡ₚ seq 0 (length (threads c)) /\
  Forall2 (fun t r => threads c !! t = Some (Done (inr (Some r))))
    order (drop a0 rs).
Proof.
  intros Hinv Hdone Hlen.
  assert (forall t p, threads c !! t = Some p ->
            exists r, p = Done (inr (Some r))) as Hall.
  { intros t p Hp. pose proof (inv_ok _ _ _ _ _ Hinv t p Hp) as Hok.
    unfold all_done in Hdone. rewrite Forall_lookup in Hdone.
    specialize (Hdone t p Hp).
    destruct p as [| |r|res|[e|[r|]]]; try discriminate. by exists r. }
  assert (order ≡ₚ seq 0 (length (threads c))) as Hperm.
  { apply (order_ok_all rs a0); [|apply (inv_order _ _ _ _ _ Hinv)].
    intros t p Hp. destruct (Hall t p Hp) as [r ->]. by eexists. }
  split; [done|].
  apply Forall2_same_length_lookup_2.
  - rewrite Hlen. apply Permutation_length in Hperm.
    by rewrite length_seq in Hperm.
  - intros k t r Hk Hr. rewrite lookup_drop in Hr.
    destruct (inv_order _ _ _ _ _ Hinv) as (_ & Hmem & Hgot).
    assert (t ∈ order) as Hin by (apply list_elem_of_lookup; by exists k).
    apply Hmem in Hin as (p & Hp & _).
    specialize (Hgot k t p Hk Hp). rewrite Hr in Hgot.
    destruct (Hall t p Hp) as [r' ->]. simpl in Hgot. congruence.
Qed.

(** C5 (concurrent dispatch).  A queue has exactly C records left to hand
    out, and C goroutines call [NextInteraction] for its key.  Whatever the
    interleaving of their steps: the run can always go on until all calls
    have returned, it cannot go on forever, and once all calls have returned
    the threads, taken in a suitable order that lists each of them exactly
    once, hold the C records in queue order, so that every record went to
    exactly one caller, none twice and none to nobody. *)
Theorem concurrent_dispatch_delivers_each_record_once (method path : string)
    (m : gmap string interactions) (mi : interactions) (C : nat) (c : config) :
  let key := getKey method path in
  let todo := drop (Z.to_nat (attempt mi)) (requestResponses mi) in
  m !! key = Some mi ->
  cursor_ok mi ->
  length todo = C ->
  rtc (step key) (start m C) c ->
  (all_done c \/ exists c', step key c c') /\
  (forall c', step key c c' -> (work_left c' < work_left c)%nat) /\
  (all_done c ->
   exists order,
     order ≡ₚ seq 0 C /\
     Forall2 (fun t r => threads c !! t = Some (Done (inr (Some r))))
       order todo).
Proof.
  intros key todo Hm [H0 Hle] Hlen Hsteps.
  destruct mi as [a rs]. simpl in *.
  assert (a = Z.of_nat (Z.to_nat a)) as Ha by lia.
  unfold todo in *. rewrite length_drop in Hlen. unfold len in Hle.
  assert (dispatch_inv key rs (Z.to_nat a) [] (start m C)) as Hstart.
  { apply dispatch_inv_start; [by rewrite <- Ha|lia]. }
  destruct (dispatch_inv_reachable key rs _ [] _ c Hstart Hsteps)
    as [order Hinv].
  assert (length (threads c) = C) as HC.
  { clear -Hsteps. remember (start m C) as c0 eqn:Hc0.
    assert (length (threads c0) = C) as H0
      by (subst c0; simpl; apply length_replicate).
    clear Hc0. induction Hsteps as [c|c c1 c' Hstep _ IH]; [done|].
    apply IH. destruct Hstep; simpl; by rewrite length_insert. }
  split; [by eapply dispatch_progress|].
  split; [intros c'; apply step_work_left|].
  intros Hdone. exists order. rewrite <- HC.
  apply (dispatch_all_done key rs (Z.to_nat a) order c Hinv Hdone).
  rewrite length_drop. lia.
Qed.

(** *** Schedules *)

Lemma fire_step key t c c' : fire key t c = Some c' -> step key c c'.
Proof.
  unfold fire. destruct (threads c !! t) as [[| |r|res|res]|] eqn:Ht;
    try discriminate.
  - destruct (lock c) eqn:Hl; [discriminate|]. intros [= <-].
    by apply step_Lock.
  - intros [= <-]. destruct (shared c !! key) as [mi|] eqn:Hmi.
    + destruct (Z.leb_spec (len (requestResponses mi)) (attempt mi)).
      * apply step_not_found; [done|]. intros mi' Hmi'. congruence.
      * by apply step_index.
    + apply step_not_found; [done|]. intros mi' Hmi'. congruence.
  - destruct (shared c !! key) as [mi|] eqn:Hmi; [|discriminate].
    intros [= <-]. by apply step_increment.
  - intros [= <-]. by apply step_Unlock.
Qed.

Lemma schedule_steps key ts c : rtc (step key) c (schedule key ts c).
Proof.
  revert c. induction ts as [|t ts IH]; intros c; simpl; [apply rtc_refl|].
  destruct (fire key t c) as [c1|] eqn:Hf; [|apply IH].
  eapply rtc_l; [by eapply fire_step|apply IH].
Qed.

Lemma run1_Next_world_table w method path :
  table (snd (run1 (OpNext method path) w)) =
    match table w !! getKey method path with
    | Some mi =>
        if len (requestResponses mi) <=? attempt mi then table w
        else match index (requestResponses mi) (attempt mi) with
             | inr _ => <[getKey method path :=
                            mkInteractions (attempt mi + 1)
                              (requestResponses mi)]> (table w)
             | inl _ => table w
             end
    | None => table w
    end.
Proof.
  unfold run1, perform, NextInteraction, bind, get_table.
  destruct (table w !! getKey method path) as [mi|]; [|done].
  destruct (len (requestResponses mi) <=? attempt mi); [done|].
  destruct (index (requestResponses mi) (attempt mi)) as [p|r]; [done|].
  simpl. unfold read, load, bind. simpl.
  by rewrite (list_lookup_middle (cells w) [] r _ eq_refl).
Qed.

Lemma fire_thread key t m l ths p :
  (t < length ths)%nat ->
  fire key t (mkConfig m l (<[t := p]> ths)) =
    match p with
    | Idle =>
        match l with
        | None => Some (mkConfig m (Some t) (<[t := Locked]> ths))
        | Some _ => None
        end
    | Locked =>
        Some (mkConfig m l
                (<[t := match m !! key with
                        | None => Returning (inr None)
                        | Some mi =>
                            if len (requestResponses mi) <=? attempt mi
                            then Returning (inr None)
                            else match index (requestResponses mi)
                                         (attempt mi) with
                                 | inr r => Copied r
                                 | inl p => Returning (inl p)
                                 end
                        end]> ths))
    | Copied r =>
        match m !! key with
        | Some mi =>
            Some (mkConfig
                    (<[key := mkInteractions (attempt mi + 1)
                                (requestResponses mi)]> m)
                    l (<[t := Returning (inr (Some r))]> ths))
        | None => None
        end
    | Returning res => Some (mkConfig m None (<[t := Done res]> ths))
    | Done _ => None
    end.
Proof.
  intros Hlt. unfold fire. cbn [threads shared lock].
  rewrite list_lookup_insert_eq by done.
  destruct p as [| |r|res|res]; rewrite ?list_insert_insert_eq; try done.
Qed.

(** X16 (a call that runs alone).  A call that takes its steps from [Lock]
    to [Unlock] without another call in between does to the map what
    [NextInteraction] does to the registry, and ends with its result: a
    record, nil or the panic. *)
Lemma solo_call_is_NextInteraction w method path ths t :
  ths !! t = Some Idle ->
  schedule (getKey method path) [t; t; t; t] (mkConfig (table w) None ths)
  = mkConfig (table (snd (run1 (OpNext method path) w))) None
      (<[t := Done (thread_result (fst (run1 (OpNext method path) w)))]> ths).
Proof.
  intros Ht. apply lookup_lt_Some in Ht as Hlt.
  rewrite <- (list_insert_id ths t Idle Ht) at 1.
  rewrite run1_Next_result, run1_Next_world_table.
  unfold schedule, next_result. rewrite !fire_thread by done.
  destruct (table w !! getKey method path) as [mi|] eqn:Hmi.
  - destruct (len (requestResponses mi) <=? attempt mi).
    + by rewrite !fire_thread by done.
    + destruct (index (requestResponses mi) (attempt mi)) as [p|r].
      * by rewrite !fire_thread by done.
      * by rewrite !fire_thread by done.
  - by rewrite !fire_thread by done.
Qed.

Lemma concurrent_dispatch_delivers_each_record_once_witness :
  let m := table (snd (run [OpAdd "POST" "/e" (plain_add 202);
                            OpAdd "POST" "/e" (plain_add 203)] NewWorld)) in
  let r202 := NewRequestResponse "POST" "/e" 202 None "JSON" None (mkOptions 0) in
  let r203 := NewRequestResponse "POST" "/e" 203 None "JSON" None (mkOptions 0) in
  let c := schedule (getKey "POST" "/e") [1; 1; 0; 1; 1; 0; 0; 0; 0]%nat
             (start m 2) in
  threads c = [Done (inr (Some r203)); Done (inr (Some r202))] /\
  exists order,
    order ≡ₚ seq 0 2 /\
    Forall2 (fun t r => threads c !! t = Some (Done (inr (Some r))))
      order [r202; r203].
Proof.
  intros m r202 r203 c. split; [reflexivity|].
  assert (m !! getKey "POST" "/e" = Some (mkInteractions 0 [r202; r203]))
    as Hm by reflexivity.
  assert (cursor_ok (mkInteractions 0 [r202; r203])) as Hok
    by (unfold cursor_ok, len; simpl; lia).
  refine (proj2 (proj2 (concurrent_dispatch_delivers_each_record_once
                          "POST" "/e" m (mkInteractions 0 [r202; r203]) 2 c
                          Hm Hok eq_refl (schedule_steps _ _ _))) _).
  unfold all_done. vm_compute. repeat constructor.
Defined.

(** ** The handler *)

Lemma respond_captured v body headers :
  respond (captured v body headers) = respond v /\
  sleep_of (captured v body headers) = sleep_of v.
Proof. done. Qed.

Lemma handler_found w method path body headers mi r :
  table w !! getKey method path = Some mi -> 0 <= attempt mi ->
  requestResponses mi !! Z.to_nat (attempt mi) = Some r ->
  handler method path body headers w
    = Returned (mkExchange (sleep_of r) (respond r))
        (mkWorld (registry (consumed w (getKey method path) mi r))
           (cells w ++ [captured r body headers])
           (calls w ++ capture_calls r body headers)).
Proof.
  intros Hmi H0 Hr. unfold handler, bind.
  rewrite (Next_found w method path mi r Hmi H0 Hr).
  fold (consumed w (getKey method path) mi r).
  unfold read at 1. rewrite load_consumed.
  rewrite (Capture_PCopy _ _ r body headers (load_consumed _ _ _ _)).
  unfold read, load. cbn [cells].
  rewrite list_lookup_insert_eq
    by (unfold consumed; simpl; rewrite length_app; simpl; lia).
  unfold ret, consumed. cbn [cells calls].
  rewrite insert_app_r_alt by done. by rewrite Nat.sub_diag.
Qed.

(** A request does to the registry what [NextInteraction] does, and what the
    client sees is decided by what [NextInteraction] answers. *)
Lemma handler_as_NextInteraction w method path body headers :
  fst (serve1 (Request method path body headers) w)
    = seen_for method path (fst (run1 (OpNext method path) w)) /\
  table (snd (serve1 (Request method path body headers) w))
    = table (snd (run1 (OpNext method path) w)).
Proof.
  unfold serve1. pose proof (Next_cases w method path) as Hc.
  inversion Hc as [Hn Heq|mi r Hmi H0 Hr Heq|mi Hmi Hneg Heq].
  - rewrite (run1_Next_none _ _ _ Hn). unfold handler, bind.
    by rewrite <- Heq.
  - rewrite (run1_Next_some _ _ _ mi r Hmi H0 Hr).
    by rewrite (handler_found _ _ _ body headers mi r Hmi H0 Hr).
  - unfold handler, run1, perform, bind. by rewrite <- Heq.
Qed.





(** ** Sequences of events at the server *)

Lemma serve_cons e es w :
  serve (e :: es) w =
    (fst (serve1 e w) :: fst (serve es (snd (serve1 e w))),
     snd (serve es (snd (serve1 e w)))).
Proof.
  simpl. destruct (serve1 e w) as [s w']. simpl.
  destruct (serve es w'). reflexivity.
Qed.











(** ** One key as a queue *)

Lemma view_same_entry w v key :
  table w !! key = table v !! key -> view w key = view v key.
Proof. unfold view, cursor, records. by intros ->. Qed.

(** On the cursor and the records of a key, every operation acts as
    [queue_step] says. *)
Lemma view_run1 (o : op) (w : World) (key : string) :
  view (snd (run1 o w)) key = queue_step key o (view w key).
Proof.
  destruct o as [method path a|method path|method path i|method path|];
    simpl queue_step.
  - case_bool_decide as Hk.
    + subst key. destruct (record_for method path a) as [r|] eqn:Hr.
      * rewrite (run1_Add_some _ _ _ _ _ Hr). cbn [snd]. unfold view.
        destruct (records_set_insert w (table w) (getKey method path)
                    (mkInteractions (cursor w (getKey method path))
                       (records w (getKey method path) ++ [r]))) as [-> ->].
        done.
      * destruct (run1_Add_none w _ _ _ Hr) as (p & _ & ->). done.
    + apply view_same_entry, run1_frame. simpl. by apply bool_decide_eq_false.
  - case_bool_decide as Hk.
    + subst key. unfold view, cursor, records.
      rewrite run1_Next_world_table.
      destruct (table w !! getKey method path) as [mi|] eqn:Hmi; simpl.
      * destruct (Z.leb_spec (len (requestResponses mi)) (attempt mi)) as [Hle|Hlt];
          [by rewrite Hmi|].
        unfold index.
        destruct (Z.ltb_spec (attempt mi) 0) as [Hneg|Hpos]; [by rewrite Hmi|].
        destruct (requestResponses mi !! Z.to_nat (attempt mi)) as [r|] eqn:Hr.
        -- by rewrite lookup_insert_eq.
        -- apply lookup_ge_None in Hr. unfold len in Hlt. lia.
      * by rewrite Hmi.
    + apply view_same_entry, run1_frame. simpl. by apply bool_decide_eq_false.
  - by rewrite run1_Interaction_world.
  - by rewrite run1_All.
  - rewrite run1_Reset. unfold view, cursor, records. cbn [snd].
    by rewrite table_set_table, lookup_empty.
Qed.

Lemma queue_step_ok key o q : queue_ok q -> queue_ok (queue_step key o q).
Proof.
  unfold queue_ok. intros Hq.
  destruct o as [method path a|method path|method path i|method path|];
    simpl; try done.
  - case_bool_decide; [|done].
    destruct (record_for method path a); [|done].
    simpl. unfold len in *. rewrite length_app. simpl. lia.
  - case_bool_decide; [|done].
    destruct (Z.leb_spec (len (snd q)) (fst q)); [done|].
    destruct (Z.ltb_spec (fst q) 0); [done|]. simpl. lia.
Qed.

(** What [NextInteraction] answers, read off the cursor and the records. *)
Lemma run1_Next_view w method path :
  queue_ok (view w (getKey method path)) ->
  fst (run1 (OpNext method path) w)
    = RRecord (records w (getKey method path)
                 !! Z.to_nat (cursor w (getKey method path))).
Proof.
  unfold queue_ok, view, cursor, records. simpl. intros Hq.
  rewrite run1_Next_result. unfold next_result.
  destruct (table w !! getKey method path) as [mi|]; [|done].
  destruct (Z.leb_spec (len (requestResponses mi)) (attempt mi)) as [Hle|Hlt].
  - symmetry. unfold not_found. f_equal. apply lookup_ge_None.
    unfold len in Hle. lia.
  - unfold index.
    destruct (Z.ltb_spec (attempt mi) 0) as [Hneg|Hpos]; [lia|].
    destruct (requestResponses mi !! Z.to_nat (attempt mi)) as [r|] eqn:Hr;
      [done|].
    apply lookup_ge_None in Hr. unfold len in Hlt. lia.
Qed.

Lemma view_ok_run1 o w key :
  queue_ok (view w key) -> queue_ok (view (snd (run1 o w)) key).
Proof. rewrite view_run1. apply queue_step_ok. Qed.

Lemma added_in_cons key o ops :
  added_in key (o :: ops) = added_in key [o] ++ added_in key ops.
Proof.
  destruct o as [method path a|method path|method path i|method path|];
    simpl; try done.
  case_bool_decide; [|done]. by destruct (record_for method path a).
Qed.

Lemma handed_out_cons key o ops r rs :
  handed_out key (o :: ops) (r :: rs)
    = handed_out key [o] [r] ++ handed_out key ops rs.
Proof.
  destruct o as [method path a|method path|method path i|method path|];
    simpl; try done.
  destruct r as [|[v|]|l|p]; try done.
  by case_bool_decide.
Qed.

(** One operation, seen from one key. *)
Lemma history_run1 o w key :
  is_reset o = false -> queue_ok (view w key) ->
  let w' := snd (run1 o w) in
  records w' key = records w key ++ added_in key [o] /\
  take (Z.to_nat (cursor w' key)) (records w' key)
    = take (Z.to_nat (cursor w key)) (records w key)
      ++ handed_out key [o] [fst (run1 o w)].
Proof.
  intros Hreset Hok w'.
  pose proof (view_run1 o w key) as Hv. fold w' in Hv.
  unfold view in Hv. unfold queue_ok, view in Hok. simpl in Hok.
  destruct o as [method path a|method path|method path i|method path|];
    simpl in Hv; try discriminate.
  - simpl. case_bool_decide as Hk.
    + destruct (record_for method path a) as [r|]; injection Hv as -> ->.
      * split; [done|]. rewrite app_nil_r. apply take_app_le.
        unfold len in Hok. lia.
      * by rewrite !app_nil_r.
    + injection Hv as -> ->. by rewrite !app_nil_r.
  - simpl. case_bool_decide as Hk.
    + subst key. rewrite (run1_Next_view w method path Hok).
      destruct (Z.leb_spec (len (records w (getKey method path)))
                  (cursor w (getKey method path))) as [Hle|Hlt].
      * injection Hv as -> ->. rewrite lookup_ge_None_2
          by (unfold len in Hle; lia).
        by rewrite !app_nil_r.
      * destruct (Z.ltb_spec (cursor w (getKey method path)) 0); [lia|].
        injection Hv as -> ->. rewrite app_nil_r.
        destruct (lookup_lt_is_Some_2 (records w (getKey method path))
                    (Z.to_nat (cursor w (getKey method path)))) as [r Hr];
          [unfold len in Hlt; lia|].
        rewrite Hr. simpl. split; [done|].
        replace (Z.to_nat (cursor w (getKey method path) + 1))
          with (S (Z.to_nat (cursor w (getKey method path)))) by lia.
        by apply take_S_r.
    + injection Hv as -> ->. rewrite !app_nil_r.
      destruct (fst (run1 (OpNext method path) w)) as [|[v|]|l|p]; simpl;
        by rewrite ?app_nil_r.
  - injection Hv as -> ->. simpl. by rewrite !app_nil_r.
  - injection Hv as -> ->. simpl. by rewrite !app_nil_r.
Qed.

(** X5 (the history of a key).  Let any operations run, on any keys and in
    any order, without a [Reset].  Then the records of a key are those it
    had followed by the records that the successful [Add] calls for the key
    appended, in call order; the cursor lies within them; and the records
    before the cursor are those that were before it at the start followed
    by the records that the [NextInteraction] calls for the key returned, in
    call order.  So no record is removed, reordered, returned twice or
    skipped. *)
Theorem records_are_kept_and_handed_out_in_order (ops : list op) (w : World)
    (key : string) :
  Forall (fun o => is_reset o = false) ops ->
  queue_ok (view w key) ->
  let w' := snd (run ops w) in
  records w' key = records w key ++ added_in key ops /\
  0 <= cursor w' key <= len (records w' key) /\
  take (Z.to_nat (cursor w' key)) (records w' key)
    = take (Z.to_nat (cursor w key)) (records w key)
      ++ handed_out key ops (fst (run ops w)).
Proof.
  intros Hops. revert w.
  induction Hops as [|o ops Ho _ IH]; intros w Hok.
  - simpl. by rewrite !app_nil_r.
  - intros w'. unfold w'. rewrite run_cons. cbn [fst snd].
    destruct (history_run1 o w key Ho Hok) as [H1 H2].
    destruct (IH _ (view_ok_run1 o w key Hok)) as (IH1 & IH2 & IH3).
    rewrite added_in_cons, handed_out_cons.
    rewrite IH1, H1 in *. rewrite IH3, H2.
    split; [by rewrite <- app_assoc|]. split; [done|].
    by rewrite <- app_assoc.
Qed.

Lemma records_are_kept_and_handed_out_in_order_witness :
  let ops := [OpAdd "GET" "/a" (plain_add 200); OpNext "GET" "/a";
              OpAdd "GET" "/b" (plain_add 500); OpNext "GET" "/a";
              OpAdd "GET" "/a" (plain_add 201); OpAdd "GET" "/a" (plain_add 202);
              OpInteraction "GET" "/a" 0; OpNext "GET" "/b";
              OpNext "GET" "/a"] in
  let r n := NewRequestResponse "GET" "/a" n None "JSON" None (mkOptions 0) in
  records (snd (run ops NewWorld)) "GET_/a" = [r 200; r 201; r 202] /\
  handed_out "GET_/a" ops (fst (run ops NewWorld)) = [r 200; r 201].
Proof.
  intros ops r.
  assert (Forall (fun o => is_reset o = false) ops) as Hops
    by (repeat constructor).
  assert (queue_ok (view NewWorld "GET_/a")) as Hok
    by (vm_compute; split; discriminate).
  destruct (records_are_kept_and_handed_out_in_order ops NewWorld "GET_/a"
              Hops Hok) as (H1 & _ & _).
  split; [exact H1|reflexivity].
Defined.

(** *** Requests that never come too early *)

Lemma pending_length w key :
  queue_ok (view w key) ->
  Z.of_nat (length (pending w key)) = len (records w key) - cursor w key.
Proof.
  unfold queue_ok, view, pending, len. simpl. intros H.
  rewrite length_drop. lia.
Qed.

Lemma never_short_step key o ops w :
  queue_ok (view w key) ->
  never_short key (length (pending w key)) (o :: ops) = true ->
  never_short key (length (pending (snd (run1 o w)) key)) ops = true /\
  forall method path, o = OpNext method path -> getKey method path = key ->
    exists r, fst (run1 o w) = found r.
Proof.
  intros Hok Hns.
  pose proof (view_ok_run1 o w key Hok) as Hok'.
  pose proof (pending_length w key Hok) as Hlen.
  pose proof (pending_length _ key Hok') as Hlen'.
  pose proof (f_equal fst (view_run1 o w key)) as Hc.
  pose proof (f_equal snd (view_run1 o w key)) as Hr.
  unfold view in Hc, Hr. cbn [fst snd] in Hc, Hr.
  rewrite Hc, Hr in Hlen'. clear Hc Hr Hok'.
  unfold queue_ok, view in Hok. cbn [fst snd] in Hok.
  set (n' := length (pending (snd (run1 o w)) key)) in *.
  destruct o as [method path a|method path|method path i|method path|];
    cbn [queue_step never_short] in Hlen', Hns.
  - split; [|discriminate]. case_bool_decide as Hk.
    + destruct (record_for method path a) as [r|]; cbn [fst snd] in Hlen'.
      * replace n' with (S (length (pending w key))); [done|].
        unfold len in *. rewrite length_app in Hlen'. simpl in Hlen'. lia.
      * replace n' with (length (pending w key)); [done|]. lia.
    + cbn [fst snd] in Hlen'.
      replace n' with (length (pending w key)); [done|]. lia.
  - case_bool_decide as Hk.
    + destruct (length (pending w key)) as [|n] eqn:Hn; [discriminate|].
      assert (cursor w key < len (records w key)) as Hlt by lia.
      cbn [fst snd] in Hlen'.
      rewrite (proj2 (Z.leb_gt _ _) Hlt) in Hlen'.
      rewrite (proj2 (Z.ltb_ge _ _) (proj1 Hok)) in Hlen'.
      cbn [fst snd] in Hlen'. split.
      * replace n' with n; [done|]. lia.
      * intros m p [= <- <-] _. subst key.
        rewrite (run1_Next_view w method path)
          by (unfold queue_ok, view; simpl; lia).
        destruct (lookup_lt_is_Some_2 (records w (getKey method path))
                    (Z.to_nat (cursor w (getKey method path)))) as [r Hr'];
          [unfold len in Hlt; lia|].
        exists r. by rewrite Hr'.
    + cbn [fst snd] in Hlen'. split.
      * replace n' with (length (pending w key)); [done|]. lia.
      * intros m p [= <- <-] Hk'. done.
  - split; [|discriminate]. cbn [fst snd] in Hlen'.
    replace n' with (length (pending w key)); [done|]. lia.
  - split; [|discriminate]. cbn [fst snd] in Hlen'.
    replace n' with (length (pending w key)); [done|]. lia.
  - split; [|discriminate]. cbn [fst snd] in Hlen'.
    replace n' with O; [done|]. unfold len in Hlen'. simpl in Hlen'. lia.
Qed.

(** When no [NextInteraction] for the key comes before its record, each of
    them returns a record. *)
Lemma never_short_served (ops : list op) (w : World) (key : string) :
  queue_ok (view w key) ->
  never_short key (length (pending w key)) ops = true ->
  forall i method path,
    ops !! i = Some (OpNext method path) -> getKey method path = key ->
    exists r, fst (run ops w) !! i = Some (found r).
Proof.
  revert w. induction ops as [|o ops IH]; intros w Hok Hns i method path Hi Hk;
    [done|].
  destruct (never_short_step key o ops w Hok Hns) as [Hns' Hfound].
  rewrite run_cons. cbn [fst]. destruct i as [|i]; simpl in Hi |- *.
  - injection Hi as ->. destruct (Hfound method path eq_refl Hk) as [r ->].
    by exists r.
  - by apply (IH _ (view_ok_run1 o w key Hok) Hns' i method path).
Qed.

(** ** Options, delay and capture at the server *)




Lemma Capture_valid p w v body headers :
  load p w = Some v ->
  exists w', Capture p body headers w = Returned tt w' /\
             load p w' = Some (captured v body headers) /\
             calls w' = calls w ++ capture_calls v body headers.
Proof.
  destruct p as [c|key i]; simpl.
  - intros Hv. rewrite (Capture_PCopy _ _ v body headers Hv).
    eexists. split; [done|]. split; [|done]. simpl.
    apply list_lookup_insert_eq. by eapply lookup_lt_Some.
  - destruct (table w !! key) as [mi|] eqn:Hmi; [|done]. simpl. intros Hv.
    rewrite (Capture_PElem _ _ _ mi v body headers Hmi Hv).
    eexists. split; [done|]. split; [|done]. simpl. unfold table. simpl.
    rewrite lookup_insert_eq. simpl.
    apply list_lookup_insert_eq. by eapply lookup_lt_Some.
Qed.

(** X7 ([Capture] called twice).  [Capture] does not remember that it has
    run: a second call on the same record overwrites the captured body and
    headers with its own and calls the capture function a second time. *)
Theorem Capture_twice_calls_twice (p : ptr) (w : World) (v : RequestResponse)
    (body1 body2 : bytes) (headers1 headers2 : Header) :
  load p w = Some v ->
  exists w',
    (Capture p body1 headers1 ;;; Capture p body2 headers2) w
      = Returned tt w' /\
    load p w' = Some (captured v body2 headers2) /\
    calls w' = calls w ++ capture_calls v body1 headers1
                       ++ capture_calls v body2 headers2.
Proof.
  intros Hv.
  destruct (Capture_valid p w v body1 headers1 Hv) as (w1 & H1 & Hl1 & Hc1).
  destruct (Capture_valid p w1 _ body2 headers2 Hl1) as (w2 & H2 & Hl2 & Hc2).
  exists w2. unfold bind. rewrite H1, H2. split; [done|]. split; [done|].
  rewrite Hc2, Hc1. by rewrite <- app_assoc.
Qed.

Lemma Capture_twice_calls_twice_witness :
  let w := world_of (NextInteraction "GET" "/"
             (snd (run [OpAdd "GET" "/" (mkAdd 200 None "JSON" (Some 7%nat) [])]
                     NewWorld))) in
  exists w',
    (Capture (PCopy 0) sample_body sample_headers ;;;
     Capture (PCopy 0) None None) w = Returned tt w' /\
    calls w' = [(7%nat, sample_body, sample_headers); (7%nat, None, None)].
Proof.
  intros w.
  destruct (Capture_twice_calls_twice (PCopy 0) w
              (NewRequestResponse "GET" "/" 200 None "JSON" (Some 7%nat)
                 (mkOptions 0))
              sample_body None sample_headers None eq_refl)
    as (w' & H & _ & Hc).
  exists w'. split; [exact H|exact Hc].
Defined.

(** ** Reading, resetting and replacing the registry *)

(** X8 ([Interaction] against [AllInteractions]).  For an attempt that is
    not negative, [Interaction] returns the element at that index of the
    list that [AllInteractions] returns for the same method and path, nil
    when the list is shorter; both return every record of the key, handed
    out or not, and neither changes anything. *)
Theorem Interaction_reads_AllInteractions (w : World) (method path : string)
    (i : Z) :
  0 <= i ->
  exists l,
    AllInteractions method path w = Returned l w /\
    run1 (OpInteraction method path i) w = (RRecord (l !! Z.to_nat i), w) /\
    l = records w (getKey method path).
Proof.
  intros H0. exists (records w (getKey method path)).
  split; [apply AllInteractions_records|].
  split; [by apply Interaction_not_negative|done].
Qed.

Lemma Interaction_reads_AllInteractions_witness :
  let w := snd (run [OpAdd "GET" "/" (plain_add 200);
                     OpAdd "GET" "/" (plain_add 201);
                     OpNext "GET" "/"] NewWorld) in
  exists l,
    AllInteractions "GET" "/" w = Returned l w /\
    run1 (OpInteraction "GET" "/" 1) w = (RRecord (l !! 1%nat), w) /\
    l = [NewRequestResponse "GET" "/" 200 None "JSON" None (mkOptions 0);
         NewRequestResponse "GET" "/" 201 None "JSON" None (mkOptions 0)].
Proof.
  intros w.
  exact (Interaction_reads_AllInteractions w "GET" "/" 1 ltac:(lia)).
Defined.

(** X9 ([Reset], then [Add]).  Whatever a key held and however far its
    cursor had moved, after [Reset] a successful [Add] makes its record the
    only record of the key and the next one handed out, and the call after
    that returns nil. *)
Theorem Reset_then_Add_starts_over (w : World) (method path : string)
    (a : add_args) (R : RequestResponse) :
  record_for method path a = Some R ->
  fst (run [OpReset; OpAdd method path a; OpNext method path;
            OpAll method path; OpNext method path] w)
    = [RDone; RDone; found R; RAll [R]; not_found].
Proof.
  intros HR. rewrite run_cons, run1_Reset. cbn [fst snd].
  set (w0 := set_table ∅ w).
  assert (table w0 !! getKey method path = None) as Hnone
    by (unfold w0; by rewrite table_set_table, lookup_empty).
  assert (exhausted w0 (getKey method path)) as He
    by (unfold exhausted; by rewrite Hnone).
  f_equal.
  rewrite run_cons, (run1_Add_some _ _ _ _ _ HR). cbn [fst snd]. f_equal.
  set (w1 := set_table _ w0).
  assert (table w1 !! getKey method path
          = Some (mkInteractions 0 [R])) as H1.
  { unfold w1. rewrite table_set_table, lookup_insert_eq.
    unfold cursor, records. by rewrite Hnone. }
  rewrite run_cons.
  rewrite (run1_Next_some w1 method path _ R H1); [|done|done].
  cbn [fst snd]. f_equal.
  set (w2 := consumed w1 _ _ R).
  assert (table w2 !! getKey method path
          = Some (mkInteractions 1 [R])) as H2
    by (unfold w2, consumed, table; simpl; by rewrite lookup_insert_eq).
  rewrite run_cons, run1_All. cbn [fst snd]. unfold records at 1.
  rewrite H2. cbn [requestResponses]. f_equal.
  rewrite run_cons, run1_Next_none; [done|].
  intros mi Hmi. rewrite H2 in Hmi. injection Hmi as <-. done.
Qed.

Lemma Reset_then_Add_starts_over_witness :
  let before := [OpAdd "GET" "/" (plain_add 500); OpNext "GET" "/";
                 OpAdd "GET" "/" (plain_add 501)] in
  let R := NewRequestResponse "GET" "/" 200 None "JSON" None (mkOptions 0) in
  fst (run [OpReset; OpAdd "GET" "/" (plain_add 200); OpNext "GET" "/";
            OpAll "GET" "/"; OpNext "GET" "/"] (snd (run before NewWorld)))
    = [RDone; RDone; found R; RAll [R]; not_found].
Proof.
  intros before R.
  exact (Reset_then_Add_starts_over _ "GET" "/" (plain_add 200) R eq_refl).
Defined.

Lemma absent_serve1 e w key :
  match e with Call o => adds_to key o = false | _ => True end ->
  table w !! key = None ->
  table (snd (serve1 e w)) !! key = None.
Proof.
  intros He Hnone. destruct e as [o|method path body headers|].
  - by apply absent_run1.
  - destruct (handler_as_NextInteraction w method path body headers)
      as [_ ->].
    by apply (absent_run1 (OpNext method path)).
  - simpl. unfold table. simpl. apply lookup_empty.
Qed.

Lemma absent_serve es w key :
  Forall (fun e => match e with
                   | Call o => adds_to key o = false
                   | _ => True
                   end) es ->
  table w !! key = None ->
  table (snd (serve es w)) !! key = None.
Proof.
  intros H. revert w. induction H as [|e es He _ IH]; intros w Hw; [done|].
  rewrite serve_cons. simpl. apply IH. by apply absent_serve1.
Qed.

(** X10 ([WithLogger] replaces the registry).  [WithLogger] gives the server
    a new, empty registry.  For every key, and until a later [Add] for that
    key, requests get the 501 error and [AllInteractions] returns the empty
    list, whatever was registered before the call. *)
Theorem WithLogger_drops_the_interactions (w : World) (method path : string)
    (es : list event) (body : bytes) (headers : Header) :
  Forall (fun e => match e with
                   | Call o => adds_to (getKey method path) o = false
                   | _ => True
                   end) es ->
  let w' := snd (serve (SetLogger :: es) w) in
  handler method path body headers w'
    = Returned (mkExchange 0 (JSONError 501 (newErr method path))) w' /\
  AllInteractions method path w' = Returned [] w'.
Proof.
  intros Hes w'.
  assert (table w' !! getKey method path = None) as Hnone.
  { unfold w'. rewrite serve_cons. cbn [snd]. apply absent_serve; [done|].
    simpl. unfold table. simpl. apply lookup_empty. }
  split.
  - unfold handler, bind. by rewrite (Next_absent _ _ _ Hnone).
  - rewrite AllInteractions_records. unfold records. by rewrite Hnone.
Qed.

Lemma WithLogger_drops_the_interactions_witness :
  let w := snd (serve [Call (OpAdd "GET" "/" (plain_add 200))] NewWorld) in
  let w' := snd (serve [SetLogger; Call (OpAdd "GET" "/other" (plain_add 200))]
                   w) in
  fst (serve1 (Request "GET" "/" None None) w)
    = Served (mkExchange 0 (Status 200)) /\
  handler "GET" "/" None None w'
    = Returned (mkExchange 0 (JSONError 501 (newErr "GET" "/"))) w'.
Proof.
  intros w w'. split; [reflexivity|].
  apply (WithLogger_drops_the_interactions w "GET" "/"
           [Call (OpAdd "GET" "/other" (plain_add 200))] None None).
  repeat constructor.
Defined.

(** ** Keys of methods without an underscore *)

(** X11 (isolation for methods without an underscore).  When neither method
    contains an underscore, two different pairs of method and path derive
    different keys: [Add] and [NextInteraction] calls for the one leave the
    answers of [NextInteraction], [Interaction] and [AllInteractions] for
    the other as they are. *)
Theorem isolation_for_methods_without_underscore (w : World)
    (method1 path1 method2 path2 : string) (ops : list op) (i : Z) :
  has_underscore method1 = false ->
  has_underscore method2 = false ->
  (method1, path1) <> (method2, path2) ->
  Forall (fun o => (exists a, o = OpAdd method1 path1 a)
                   \/ o = OpNext method1 path1) ops ->
  let w' := snd (run ops w) in
  fst (run1 (OpNext method2 path2) w') = fst (run1 (OpNext method2 path2) w) /\
  fst (run1 (OpInteraction method2 path2 i) w')
    = fst (run1 (OpInteraction method2 path2 i) w) /\
  fst (run1 (OpAll method2 path2) w') = fst (run1 (OpAll method2 path2) w).
Proof.
  intros H1 H2 Hne Hops w'.
  assert (getKey method1 path1 <> getKey method2 path2) as Hk.
  { intros Heq. destruct (getKey_injective _ _ _ _ H1 H2 Heq) as [-> ->].
    by apply Hne. }
  assert (table w' !! getKey method2 path2 = table w !! getKey method2 path2)
    as Hframe.
  { apply run_frame. eapply Forall_impl; [exact Hops|].
    intros o [[a ->]| ->]; simpl; by apply bool_decide_eq_false. }
  rewrite !run1_Next_result, !run1_Interaction_result, !run1_All.
  unfold records. simpl. by rewrite Hframe.
Qed.

Lemma isolation_for_methods_without_underscore_witness :
  let ops := [OpAdd "GET" "/a" (plain_add 200); OpNext "GET" "/a";
              OpNext "GET" "/a"] in
  let w := snd (run [OpAdd "POST" "/a" (plain_add 201)] NewWorld) in
  fst (run1 (OpNext "POST" "/a") (snd (run ops w)))
    = fst (run1 (OpNext "POST" "/a") w).
Proof.
  intros ops w.
  refine (proj1 (isolation_for_methods_without_underscore w "GET" "/a"
                   "POST" "/a" ops 0 eq_refl eq_refl _ _)).
  - discriminate.
  - apply Forall_cons. split; [left; eexists; reflexivity|].
    apply Forall_cons. split; [by right|].
    apply Forall_cons. split; [by right|]. apply Forall_nil_2.
Defined.

(** ** The mutex *)

Lemma lock_inv_start m n : lock_inv (start m n).
Proof.
  intros t p Hp. simpl in *. apply lookup_replicate in Hp as [-> _]. done.
Qed.

Lemma lock_inv_step key c c' : lock_inv c -> step key c c' -> lock_inv c'.
Proof.
  intros Hinv Hstep.
  assert (forall t p q, threads c !! t = Some p ->
            in_critical_section p = true -> in_critical_section q = true ->
            lock_inv (mkConfig (shared c) (lock c) (<[t := q]> (threads c))))
    as Hinside.
  { intros t p q Ht Hp Hq t' q' Hq'. simpl in *.
    apply lookup_thread_insert in Hq' as [(-> & -> & _)|(Hne & Hq')].
    - split; [intros _; by apply (Hinv t p)|done].
    - by apply Hinv. }
  destruct Hstep as [t c Ht Hfree|t c Ht Hmiss|t c mi Ht Hmi Hlt
                    |t c r mi Ht Hmi|t c res Ht].
  - intros t' q Hq. simpl in *.
    apply lookup_thread_insert in Hq as [(-> & -> & _)|(Hne & Hq)]; [done|].
    specialize (Hinv t' q Hq). rewrite Hfree in Hinv.
    split; [intros H; apply Hinv in H; done|intros [= ->]; done].
  - by apply (Hinside t Locked).
  - apply (Hinside t Locked); [done|done|].
    by destruct (index (requestResponses mi) (attempt mi)).
  - intros t' q Hq. simpl in *.
    apply lookup_thread_insert in Hq as [(-> & -> & _)|(Hne & Hq)].
    + split; [intros _; by apply (Hinv t (Copied r))|done].
    + by apply Hinv.
  - assert (lock c = Some t) as Hl by (by apply (Hinv t (Returning res))).
    intros t' q Hq. simpl in *.
    apply lookup_thread_insert in Hq as [(-> & -> & _)|(Hne & Hq)]; [done|].
    specialize (Hinv t' q Hq). rewrite Hl in Hinv.
    split; [intros H; apply Hinv in H; congruence|done].
Qed.

(** X12 (mutual exclusion).  However the steps of concurrent
    [NextInteraction] calls interleave, at most one call is between its
    [Lock] and its [Unlock], and that call holds the mutex. *)
Theorem one_call_at_a_time (key : string) (m : gmap string interactions)
    (n : nat) (c : config) :
  rtc (step key) (start m n) c ->
  forall t1 t2 p1 p2,
    threads c !! t1 = Some p1 -> threads c !! t2 = Some p2 ->
    in_critical_section p1 = true -> in_critical_section p2 = true ->
    t1 = t2 /\ lock c = Some t1.
Proof.
  intros Hsteps.
  assert (lock_inv c) as Hinv.
  { pose proof (lock_inv_start m n) as H0. revert H0.
    induction Hsteps as [c|c c1 c' Hstep _ IH]; [done|].
    intros H0. apply IH. by eapply lock_inv_step. }
  intros t1 t2 p1 p2 H1 H2 Hp1 Hp2.
  apply (Hinv t1 p1 H1) in Hp1. apply (Hinv t2 p2 H2) in Hp2.
  split; [congruence|done].
Qed.

Lemma one_call_at_a_time_witness :
  let m := table (snd (run [OpAdd "POST" "/e" (plain_add 202)] NewWorld)) in
  let c := schedule (getKey "POST" "/e") [1; 0; 1; 2; 1]%nat (start m 3) in
  threads c !! 1%nat
    = Some (Returning (inr (Some (NewRequestResponse "POST" "/e" 202 None
                                    "JSON" None (mkOptions 0))))) /\
  lock c = Some 1%nat.
Proof.
  intros m c. split; [reflexivity|].
  refine (proj2 (one_call_at_a_time (getKey "POST" "/e") m 3 c
                   (schedule_steps _ _ _) 1%nat 1%nat _ _ eq_refl eq_refl
                   eq_refl eq_refl)).
Defined.

(** ** Clients that register and then request *)

Lemma sum_list_insert {A} (f : A -> nat) (l : list A) i x y :
  l !! i = Some x ->
  (sum_list (f <$> <[i := y]> l) + f x = sum_list (f <$> l) + f y)%nat.
Proof.
  revert i. induction l as [|z l IH]; intros [|i] H; simpl in *; try done.
  - injection H as ->. lia.
  - specialize (IH i H). unfold fmap in IH. lia.
Qed.

Lemma never_short_interleaving method path progs ops n :
  interleaving progs ops ->
  Forall (client_state method path) progs ->
  (sum_list (waiting <$> progs) <= n)%nat ->
  never_short (getKey method path) n ops = true.
Proof.
  intros Hil. revert n.
  induction Hil as [progs _|progs i o rest ops Hi _ IH]; intros n Hst Hn;
    [done|].
  pose proof (Forall_lookup_1 _ _ _ _ Hst Hi) as Hprog.
  pose proof (sum_list_insert waiting progs i (o :: rest) rest Hi) as Hsum.
  assert (forall prog, client_state method path prog ->
            Forall (client_state method path) (<[i := prog]> progs)) as Hst'.
  { intros prog Hp. by apply Forall_insert. }
  destruct Hprog as [(a & Heq & [R HR])|[Heq|Heq]]; [| |discriminate].
  - injection Heq as -> ->. simpl.
    rewrite bool_decide_eq_true_2 by done. rewrite HR.
    apply IH; [apply Hst'; right; by left|]. simpl in Hsum. lia.
  - injection Heq as -> ->. simpl.
    rewrite bool_decide_eq_true_2 by done.
    simpl in Hsum. destruct n as [|n]; [lia|].
    apply IH; [apply Hst'; right; by right|]. lia.
Qed.

(** X13 (clients that register and then request).  Several clients each
    add one interaction for a key, with options that succeed, and then ask
    for the next interaction of that key.  However their calls interleave,
    every [NextInteraction] returns a record, never nil. *)
Theorem registering_clients_are_served (w : World) (method path : string)
    (adds : list add_args) (ops : list op) :
  Forall (fun a => is_Some (record_for method path a)) adds ->
  queue_ok (view w (getKey method path)) ->
  interleaving (client method path <$> adds) ops ->
  forall i,
    ops !! i = Some (OpNext method path) ->
    exists r, fst (run ops w) !! i = Some (found r).
Proof.
  intros Hadds Hok Hil i Hi.
  apply (never_short_served ops w (getKey method path) Hok)
    with method path; [|done|done].
  assert (Forall (client_state method path) (client method path <$> adds))
    as Hst.
  { apply Forall_fmap. eapply Forall_impl; [exact Hadds|].
    intros a Ha. left. by exists a. }
  assert (sum_list (waiting <$> (client method path <$> adds)) = 0%nat) as H0.
  { clear. induction adds as [|a l IH]; [done|]. exact IH. }
  apply (never_short_interleaving method path _ ops _ Hil Hst). lia.
Qed.

Lemma registering_clients_are_served_witness :
  let a1 := plain_add 202 in
  let a2 := mkAdd 203 (Some "{}") "JSON" None [] in
  let ops := [OpAdd "POST" "/e" a1; OpAdd "POST" "/e" a2;
              OpNext "POST" "/e"; OpNext "POST" "/e"] in
  exists r, fst (run ops NewWorld) !! 3%nat = Some (found r).
Proof.
  intros a1 a2 ops.
  apply (registering_clients_are_served NewWorld "POST" "/e" [a1; a2] ops).
  - apply Forall_cons. split; [by eexists|].
    apply Forall_cons. split; [by eexists|]. apply Forall_nil_2.
  - vm_compute. split; discriminate.
  - apply (interleaving_step _ 0%nat _ [OpNext "POST" "/e"]); [reflexivity|].
    apply (interleaving_step _ 1%nat _ [OpNext "POST" "/e"]); [reflexivity|].
    apply (interleaving_step _ 1%nat _ []); [reflexivity|].
    apply (interleaving_step _ 0%nat _ []); [reflexivity|].
    apply interleaving_done. repeat constructor.
  - reflexivity.
Defined.

(** ** Concurrent dispatch with any number of callers *)

Lemma dispatch_inv_any_start key rs a0 m n :
  m !! key = Some (mkInteractions (Z.of_nat a0) rs) ->
  (a0 <= length rs)%nat ->
  dispatch_inv_any key rs a0 [] (start m n).
Proof.
  intros Hm Hn. split; simpl.
  - split; [apply NoDup_nil_2|]. split.
    + intros t. split; [by intros ?%elem_of_nil|].
      intros (p & Hp & Hs). apply lookup_replicate in Hp as [-> _].
      by destruct Hs.
    + intros k t p Hk. done.
  - intros t p Hp. by apply lookup_replicate in Hp as [-> _].
  - intros t p Hp. by apply lookup_replicate in Hp as [-> _].
  - apply lock_inv_start.
  - done.
  - exists a0. split; [done|]. unfold lag. simpl. lia.
  - lia.
Qed.

Lemma dispatch_inv_any_step key rs a0 order c c' :
  dispatch_inv_any key rs a0 order c -> step key c c' ->
  exists order', dispatch_inv_any key rs a0 order' c'.
Proof.
  intros Hinv Hstep.
  pose proof (lock_inv_step key c c' (any_cs _ _ _ _ _ Hinv) Hstep) as Hcs'.
  destruct Hinv as [Hord Hnp Hnil Hcs Hhold (a & Ha & Hlag) Hb].
  destruct Hstep as [t c Ht Hfree|t c Ht Hmiss|t c mi Ht Hmi Hlt
                    |t c r mi Ht Hmi|t c res Ht].
  - (* Lock *)
    exists order. split; simpl; try done.
    + by apply (order_ok_same rs a0 order _ t Idle).
    + intros t' q Hq.
      apply lookup_thread_insert in Hq as [(-> & -> & _)|(Hne & Hq)];
        [done|by eapply Hnp].
    + intros t' q Hq.
      apply lookup_thread_insert in Hq as [(-> & -> & _)|(Hne & Hq)];
        [done|by eapply Hnil].
    + intros t' [= <-]. rewrite (lookup_thread_insert_eq _ _ _ _ Ht). eauto.
    + exists a. split; [done|].
      unfold lag in *. simpl. rewrite Hfree in Hlag.
      by rewrite (lookup_thread_insert_eq _ _ _ _ Ht).
  - (* not found *)
    assert (lock c = Some t) as Hl by (by apply (Hcs t Locked)).
    rewrite (lag_holder c t Locked Hl Ht) in Hlag.
    specialize (Hmiss _ Ha). simpl in Hmiss. unfold len in Hmiss.
    exists order. split; simpl; try done.
    + by apply (order_ok_same rs a0 order _ t Locked).
    + intros t' q Hq.
      apply lookup_thread_insert in Hq as [(-> & -> & _)|(Hne & Hq)];
        [done|by eapply Hnp].
    + intros t' q Hq Hq'.
      apply lookup_thread_insert in Hq as [(-> & -> & _)|(Hne & Hq)];
        [lia|by eapply Hnil].
    + intros t' Ht'. apply lookup_lt_is_Some. rewrite length_insert.
      apply lookup_lt_is_Some. by apply Hhold.
    + exists a. split; [done|]. unfold lag. simpl.
      rewrite Hl, (lookup_thread_insert_eq _ _ _ _ Ht). lia.
  - (* the record is copied *)
    assert (lock c = Some t) as Hl by (by apply (Hcs t Locked)).
    rewrite (lag_holder c t Locked Hl Ht) in Hlag.
    assert (mi = mkInteractions (Z.of_nat a) rs) as -> by congruence.
    simpl in Hlt. unfold len in Hlt.
    destruct (lookup_lt_is_Some_2 rs a) as [r Hr]; [lia|].
    simpl. rewrite (index_found _ _ _ Hr).
    assert (a = (a0 + length order)%nat) as -> by lia.
    exists (order ++ [t]). split; simpl; try done.
    + by apply (order_ok_snoc rs a0 order _ t Locked _ r).
    + intros t' q Hq.
      apply lookup_thread_insert in Hq as [(-> & -> & _)|(Hne & Hq)];
        [done|by eapply Hnp].
    + intros t' q Hq Hq'.
      apply lookup_thread_insert in Hq as [(-> & -> & _)|(Hne & Hq)];
        [done|].
      specialize (Hnil t' q Hq Hq'). lia.
    + simpl in Hcs'. by rewrite (index_found _ _ _ Hr) in Hcs'.
    + intros t' Ht'. apply lookup_lt_is_Some. rewrite length_insert.
      apply lookup_lt_is_Some. by apply Hhold.
    + exists (a0 + length order)%nat. split; [done|].
      unfold lag. simpl. rewrite Hl, (lookup_thread_insert_eq _ _ _ _ Ht).
      rewrite length_app. simpl. lia.
    + rewrite length_app. simpl. lia.
  - (* the cursor advances *)
    assert (lock c = Some t) as Hl by (by apply (Hcs t (Copied r))).
    rewrite (lag_holder c t _ Hl Ht) in Hlag.
    assert (mi = mkInteractions (Z.of_nat a) rs) as -> by congruence.
    exists order. split; simpl; try done.
    + by apply (order_ok_same rs a0 order _ t (Copied r)).
    + intros t' q Hq.
      apply lookup_thread_insert in Hq as [(-> & -> & _)|(Hne & Hq)];
        [done|by eapply Hnp].
    + intros t' q Hq.
      apply lookup_thread_insert in Hq as [(-> & -> & _)|(Hne & Hq)];
        [done|by eapply Hnil].
    + intros t' Ht'. apply lookup_lt_is_Some. rewrite length_insert.
      apply lookup_lt_is_Some. by apply Hhold.
    + exists (a + 1)%nat. split.
      * rewrite lookup_insert_eq. do 2 f_equal. lia.
      * unfold lag. simpl.
        rewrite Hl, (lookup_thread_insert_eq _ _ _ _ Ht). lia.
  - (* Unlock *)
    assert (lock c = Some t) as Hl by (by apply (Hcs t (Returning res))).
    rewrite (lag_holder c t _ Hl Ht) in Hlag.
    exists order. split; simpl; try done.
    + by apply (order_ok_same rs a0 order _ t (Returning res)).
    + intros t' q Hq.
      apply lookup_thread_insert in Hq as [(-> & -> & _)|(Hne & Hq)];
        [by apply (Hnp t (Returning res))|by eapply Hnp].
    + intros t' q Hq.
      apply lookup_thread_insert in Hq as [(-> & -> & _)|(Hne & Hq)];
        [by apply (Hnil t (Returning res))|by eapply Hnil].
    + exists a. split; [done|]. unfold lag. simpl. lia.
Qed.

Lemma dispatch_inv_any_reachable key rs a0 order c c' :
  dispatch_inv_any key rs a0 order c -> rtc (step key) c c' ->
  exists order', dispatch_inv_any key rs a0 order' c'.
Proof.
  intros Hinv Hsteps. revert order Hinv.
  induction Hsteps as [c|c c1 c' Hstep _ IH]; intros order Hinv; [eauto|].
  destruct (dispatch_inv_any_step _ _ _ order c c1 Hinv Hstep)
    as [order1 Hinv1].
  by eapply IH.
Qed.

Lemma dispatch_any_progress key rs a0 order c :
  dispatch_inv_any key rs a0 order c ->
  all_done c \/ exists c', step key c c'.
Proof.
  intros Hinv. destruct (lock c) as [t|] eqn:Hl.
  - right. destruct (any_holder _ _ _ _ _ Hinv t Hl) as [p Hp].
    pose proof (proj2 (any_cs _ _ _ _ _ Hinv t p Hp) Hl) as Hin.
    destruct (any_cursor _ _ _ _ _ Hinv) as (a & Ha & _).
    destruct p as [| |r|res|res]; try discriminate.
    + destruct (Z_le_gt_dec (len rs) (Z.of_nat a)) as [Hle|Hgt].
      * eexists. apply step_not_found; [done|].
        intros mi Hmi. rewrite Ha in Hmi. injection Hmi as <-. done.
      * eexists. eapply step_index; [done|done|]. simpl. lia.
    + eexists. by eapply step_increment.
    + eexists. by eapply step_Unlock.
  - destruct (idle_or_done (threads c)) as [Hd|[t Ht]].
    + intros t p Hp. pose proof (any_cs _ _ _ _ _ Hinv t p Hp) as Hcs.
      rewrite Hl in Hcs. destruct (in_critical_section p); [|done].
      discriminate (proj1 Hcs eq_refl).
    + by left.
    + right. eexists. by eapply step_Lock.
Qed.

Lemma steps_keep_the_threads key c c' :
  rtc (step key) c c' -> length (threads c') = length (threads c).
Proof.
  induction 1 as [c|c c1 c' Hstep _ IH]; [done|].
  rewrite IH. destruct Hstep; simpl; by rewrite length_insert.
Qed.

(** X14 (concurrent dispatch, any number of callers).  Any number [n] of
    goroutines call [NextInteraction] for a key with any number of records
    left.  However their steps interleave, the run can go on until all
    calls have returned, and then the threads that hold a record, taken in
    the order in which they copied it, hold the first records left, in
    queue order and each exactly once; they are as many as the callers or
    the records, whichever are fewer; and every other caller got nil. *)
Theorem concurrent_dispatch_any_number_of_callers (method path : string)
    (m : gmap string interactions) (mi : interactions) (n : nat)
    (c : config) :
  let key := getKey method path in
  let todo := drop (Z.to_nat (attempt mi)) (requestResponses mi) in
  m !! key = Some mi ->
  cursor_ok mi ->
  rtc (step key) (start m n) c ->
  (all_done c \/ exists c', step key c c') /\
  (all_done c ->
   exists order,
     NoDup order /\
     length order = (n `min` length todo)%nat /\
     Forall2 (fun t r => threads c !! t = Some (Done (inr (Some r))))
       order (take (length order) todo) /\
     (forall t, (t < n)%nat -> t ∉ order ->
                threads c !! t = Some (Done (inr None)))).
Proof.
  intros key todo Hm [H0 Hle] Hsteps.
  destruct mi as [a rs]. simpl in *.
  assert (a = Z.of_nat (Z.to_nat a)) as Ha by lia.
  unfold len in Hle.
  assert (dispatch_inv_any key rs (Z.to_nat a) [] (start m n)) as Hstart.
  { apply dispatch_inv_any_start; [by rewrite <- Ha|lia]. }
  destruct (dispatch_inv_any_reachable key rs _ [] _ c Hstart Hsteps)
    as [order Hinv].
  pose proof (steps_keep_the_threads _ _ _ Hsteps) as Hn.
  simpl in Hn. rewrite length_replicate in Hn.
  split; [by eapply dispatch_any_progress|].
  intros Hdone. exists order.
  destruct Hinv as [Hord Hnp Hnil Hcs Hhold _ Hb].
  destruct Hord as (Hnd & Hmem & Hgot).
  unfold all_done in Hdone. rewrite Forall_lookup in Hdone.
  assert (forall t p, threads c !! t = Some p ->
            (exists r, p = Done (inr (Some r))) \/ p = Done (inr None))
    as Hend.
  { intros t p Hp. specialize (Hdone t p Hp). specialize (Hnp t p Hp).
    destruct p as [| |r|res|[e|[r|]]]; try discriminate; eauto. }
  assert (length order <= n)%nat as Hlen_n.
  { assert (order ⊆+ seq 0 (length (threads c))) as Hsub.
    { apply NoDup_submseteq; [done|].
      intros t Ht. apply elem_of_seq. apply Hmem in Ht as (p & Hp & _).
      apply lookup_lt_Some in Hp. lia. }
    apply submseteq_length in Hsub. rewrite length_seq in Hsub. lia. }
  assert (length todo = (length rs - Z.to_nat a)%nat) as Htodo
    by (unfold todo; apply length_drop).
  assert (forall t, (t < n)%nat -> t ∉ order ->
            threads c !! t = Some (Done (inr None))) as Hrest.
  { intros t Ht Hnotin.
    destruct (lookup_lt_is_Some_2 (threads c) t) as [p Hp]; [lia|].
    destruct (Hend t p Hp) as [[r ->]| ->]; [|done].
    exfalso. apply Hnotin, Hmem. exists (Done (inr (Some r))).
    split; [done|]. by eexists. }
  split; [done|]. split; [|split; [|done]].
  - destruct (decide (length order = n)) as [Heq|Hne]; [lia|].
    assert (exists t, (t < n)%nat /\ t ∉ order) as (t & Ht & Hnotin).
    { destruct (decide (Forall (fun t => t ∈ order) (seq 0 n)))
        as [Hall|Hex].
      - exfalso. rewrite Forall_forall in Hall.
        assert (seq 0 n ⊆+ order) as Hsub
          by (apply NoDup_submseteq; [apply NoDup_seq|done]).
        apply submseteq_length in Hsub. rewrite length_seq in Hsub. lia.
      - apply not_Forall_Exists in Hex; [|apply _].
        apply Exists_exists in Hex as (t & Ht & Hnotin).
        apply elem_of_seq in Ht. exists t. split; [lia|done]. }
    pose proof (Hrest t Ht Hnotin) as Hp.
    specialize (Hnil t _ Hp eq_refl). lia.
  - apply Forall2_same_length_lookup_2.
    + rewrite length_take. lia.
    + intros k t r Hk Hr. apply lookup_take_Some in Hr as [Hr _].
      unfold todo in Hr. rewrite lookup_drop in Hr.
      assert (t ∈ order) as Hin by (apply list_elem_of_lookup; by exists k).
      apply Hmem in Hin as (p & Hp & _).
      specialize (Hgot k t p Hk Hp). rewrite Hr in Hgot.
      destruct (Hend t p Hp) as [[r' ->]| ->]; simpl in Hgot; congruence.
Qed.

Lemma concurrent_dispatch_any_number_of_callers_witness :
  let m := table (snd (run [OpAdd "POST" "/e" (plain_add 202)] NewWorld)) in
  let c := schedule (getKey "POST" "/e") [2; 2; 2; 2; 0; 0; 0; 1; 1; 1]%nat
             (start m 3) in
  threads c
    = [Done (inr None); Done (inr None);
       Done (inr (Some (NewRequestResponse "POST" "/e" 202 None "JSON" None
                          (mkOptions 0))))] /\
  exists order,
    NoDup order /\ length order = 1%nat /\
    (forall t, (t < 3)%nat -> t ∉ order ->
               threads c !! t = Some (Done (inr None))).
Proof.
  intros m c. split; [reflexivity|].
  assert (all_done c) as Hdone by (unfold all_done; repeat constructor).
  set (mi := mkInteractions 0
               [NewRequestResponse "POST" "/e" 202 None "JSON" None
                  (mkOptions 0)]).
  assert (cursor_ok mi) as Hok by (unfold cursor_ok, len; simpl; lia).
  destruct (proj2 (concurrent_dispatch_any_number_of_callers "POST" "/e" m
                     mi 3 c eq_refl Hok (schedule_steps _ _ _)) Hdone)
    as (order & Hnd & Hlen & _ & Hrest).
  exists order. split; [exact Hnd|]. split; [exact Hlen|exact Hrest].
Defined.

(** ** Samples for the lemmas on keys and on a call that runs alone *)

Lemma isolation_between_keys_witness :
  let w := snd (run [OpAdd "GET" "/a" (plain_add 200)] NewWorld) in
  let ops := [OpAdd "POST" "/a" (plain_add 201); OpNext "POST" "/a";
              OpInteraction "GET" "/a" 0; OpNext "GET" "/b"] in
  fst (run1 (OpNext "GET" "/a") (snd (run ops w)))
    = fst (run1 (OpNext "GET" "/a") w).
Proof.
  intros w ops.
  refine (proj1 (isolation_between_keys ops w "GET" "/a" 0 _)).
  repeat constructor.
Defined.

Lemma solo_call_is_NextInteraction_witness :
  let w := snd (run [OpAdd "GET" "/a" (plain_add 200)] NewWorld) in
  schedule (getKey "GET" "/a") [1; 1; 1; 1]%nat
    (mkConfig (table w) None [Idle; Idle])
  = mkConfig (table (snd (run1 (OpNext "GET" "/a") w))) None
      [Idle;
       Done (inr (Some (NewRequestResponse "GET" "/a" 200 None "JSON" None
                          (mkOptions 0))))].
Proof.
  intros w.
  exact (solo_call_is_NextInteraction w "GET" "/a" [Idle; Idle] 1 eq_refl).
Defined.

Lemma Capture_through_Interaction_is_stored_witness :
  let w := snd (run [OpAdd "GET" "/" (plain_add 200)] NewWorld) in
  let r := NewRequestResponse "GET" "/" 200 None "JSON" None (mkOptions 0) in
  Interaction "GET" "/" 0 w = Returned (Some (PElem "GET_/" 0)) w /\
  exists r',
    load (PElem "GET_/" 0) w = Some r' /\
    let w2 := world_of (Capture (PElem "GET_/" 0) sample_body sample_headers w) in
    run1 (OpInteraction "GET" "/" 0) w2
      = (found (captured r' sample_body sample_headers), w2).
Proof.
  intros w r.
  assert (Interaction "GET" "/" 0 w = Returned (Some (PElem "GET_/" 0)) w)
    as H by reflexivity.
  split; [exact H|].
  exact (Capture_through_Interaction_is_stored w "GET" "/" 0 (PElem "GET_/" 0)
           sample_body sample_headers H).
Defined.
